(** * The chunked synthesis pipeline of the F5-TTS audio processor

    A shallow embedding of [AudioProcessor] (audio_processor.py) and of the
    script loop of [run_pipeline] (run_complete_pipeline.py), with the
    properties of the segmentation, synthesis, merge and driver steps. *)

From Stdlib Require Import ZArith Lia Ascii.
From Stdlib Require DecimalString DecimalNat.
From stdpp Require Import base tactics option list sorting strings gmap.

Local Open Scope Z_scope.

(** ** Python [str] values and the primitives the segmenter uses *)

Module PyStr.

(** A [str] is a sequence of Unicode code points. *)
Definition char := N.
Definition str := list char.

(** [len(s)] *)
Definition len (s : str) : Z := Z.of_nat (length s).

(** Normalisation of one slice index against the length [n]: a negative
    index counts from the end, and both ends saturate. *)
Definition clamp (n i : Z) : Z :=
  if i <? 0 then Z.max 0 (n + i) else Z.min n i.

(** [s[lo:hi]] *)
Definition slice (s : str) (lo hi : Z) : str :=
  let a := clamp (len s) lo in
  let b := clamp (len s) hi in
  take (Z.to_nat (b - a)) (drop (Z.to_nat a) s).

(** [s[lo:]] *)
Definition slice_from (s : str) (lo : Z) : str :=
  drop (Z.to_nat (clamp (len s) lo)) s.

(** The code points [str.strip()] removes: those for which
    [str.isspace] holds. *)
Definition isspace (c : char) : bool :=
  ((9 <=? c) && (c <=? 13) || (28 <=? c) && (c <=? 32) || (c =? 133)
   || (c =? 160) || (c =? 5760) || (8192 <=? c) && (c <=? 8202)
   || (c =? 8232) || (c =? 8233) || (c =? 8239) || (c =? 8287)
   || (c =? 12288))%N.

Fixpoint lstrip (s : str) : str :=
  match s with
  | [] => []
  | c :: s' => if isspace c then lstrip s' else s
  end.

Definition rstrip (s : str) : str := reverse (lstrip (reverse s)).

(** [s.strip()] *)
Definition strip (s : str) : str := rstrip (lstrip s).

(** [s.startswith(sub)] *)
Fixpoint startswith (s sub : str) {struct sub} : bool :=
  match sub, s with
  | [], _ => true
  | _ :: _, [] => false
  | p :: sub', c :: s' => (c =? p)%N && startswith s' sub'
  end.

(** The highest index at which [sub] occurs in [s], counted from the
    offset [i] of the head of [s]; [-1] when there is none. *)
Fixpoint rfind_from (s sub : str) (i : Z) : Z :=
  match s with
  | [] => if startswith [] sub then i else -1
  | _ :: s' =>
      let r := rfind_from s' sub (i + 1) in
      if r =? -1 then (if startswith s sub then i else -1) else r
  end.

(** [s.rfind(sub)] *)
Definition rfind (s sub : str) : Z := rfind_from s sub 0.

(** String literals of the development, as code points. *)
Definition of_string (s : string) : str :=
  (fun a => Ascii.N_of_ascii a) <$> String.list_ascii_of_string s.

(** [sub] occurs in [s] at index [i]. *)
Definition occurs_at (s sub : str) (i : Z) : Prop :=
  exists pre post, s = pre ++ sub ++ post /\ len pre = i.

Definition occurs_in (s sub : str) : Prop := exists i, occurs_at s sub i.

Definition absent (s sub : str) : Prop := forall j, ~ occurs_at s sub j.

(** [s] holds white space only. *)
Definition blank (s : str) : Prop := Forall (fun c => isspace c = true) s.

End PyStr.

Import PyStr.

(** ** [AudioProcessor.chunk_text] *)

Definition SPACE : char := 32%N.
Definition NEWLINE : char := 10%N.
Definition DOT : char := 46%N.
Definition BANG : char := 33%N.
Definition QUESTION : char := 63%N.

(** ['. ', '! ', '? ', '.\n', '!\n', '?\n'] *)
Definition delimiters : list str :=
  [ [DOT; SPACE]; [BANG; SPACE]; [QUESTION; SPACE];
    [DOT; NEWLINE]; [BANG; NEWLINE]; [QUESTION; NEWLINE] ].

(** The [for delimiter in ...] loop with its [break]: the new [end_pos]. *)
Fixpoint find_sentence_end (chunk : str) (ds : list str)
    (current_pos end_pos : Z) : Z :=
  match ds with
  | [] => end_pos
  | delimiter :: ds' =>
      let last_delim := rfind chunk delimiter in
      if negb (last_delim =? -1)
      then current_pos + last_delim + len delimiter
      else find_sentence_end chunk ds' current_pos end_pos
  end.

(** One appended chunk, together with the bounds of the slice of the text
    it was trimmed from (the bounds are ghost data: the program keeps only
    [body]). *)
Record piece := Piece { lo : Z; hi : Z; body : str }.

(** The [while current_pos < len(text)] loop.  [fuel] bounds the number of
    iterations; [None] means the bound was reached before the loop ended. *)
Fixpoint chunk_loop (fuel : nat) (text : str) (max_chars : Z)
    (chunks : list piece) (current_pos : Z) : option (list piece) :=
  match fuel with
  | O => None
  | S fuel' =>
      if current_pos <? len text then
        let end_pos := current_pos + max_chars in
        if end_pos >=? len text then
          Some (chunks ++
                [Piece current_pos (len text) (strip (slice_from text current_pos))])
        else
          let chunk := slice text current_pos end_pos in
          let end_pos := find_sentence_end chunk delimiters current_pos end_pos in
          chunk_loop fuel' text max_chars
            (chunks ++
             [Piece current_pos end_pos (strip (slice text current_pos end_pos))])
            end_pos
      else Some chunks
  end.

Definition chunk_pieces (fuel : nat) (text : str) (max_chars : Z)
    : option (list piece) :=
  if len text <=? max_chars then Some [Piece 0 (len text) text]
  else chunk_loop fuel text max_chars [] 0.

(** [chunk_text(text, max_chars)], run for at most [fuel] iterations. *)
Definition chunk_text_fuel (fuel : nat) (text : str) (max_chars : Z)
    : option (list str) :=
  map body <$> chunk_pieces fuel text max_chars.

(** One more iteration than the text has characters is enough whenever
    [max_chars >= 1] (lemma [chunk_pieces_fuel] below). *)
Definition enough (text : str) : nat := S (length text).

Definition chunk_text (text : str) (max_chars : Z) : option (list str) :=
  chunk_text_fuel (enough text) text max_chars.

(** The untrimmed slice of the text between the bounds of a piece. *)
Definition raw (text : str) (p : piece) : str := slice text (lo p) (hi p).


(** The bounds of the pieces are contiguous, from [a] up to [b]. *)
Fixpoint chained (a : Z) (ps : list piece) (b : Z) : Prop :=
  match ps with
  | [] => a = b
  | p :: ps' => lo p = a /\ a <= hi p /\ chained (hi p) ps' b
  end.

(** The text of the boundary example: sixty-four characters, one sentence
    end in the first twenty. *)
Definition hello : str :=
  of_string "Hello world. This is a test sentence that continues for a while.".

(** ** The processor and the world it runs in *)

Definition path := string.

(** [d / name] on paths. *)
Definition joinpath (d : path) (name : string) : path := d +:+ "/" +:+ name.

(** [s.zfill(width)] for a string of digits. *)
Definition zfill (width : nat) (s : string) : string :=
  Nat.iter (width - String.length s) (String "0"%char) s.

(** [f"{n:03d}"] for a natural number [n]. *)
Definition fmt03d (n : nat) : string :=
  zfill 3 (DecimalString.NilEmpty.string_of_uint (Nat.to_uint n)).

(** Reading a decimal numeral back (leading zeros allowed). *)
Definition parse_nat (s : string) : option nat :=
  Nat.of_uint <$> DecimalString.NilEmpty.uint_of_string s.

(** The exceptions of the model (all of them instances of [Exception]). *)
Inductive exn :=
  | FileNotFoundError (p : path)   (* [open] of a file that cannot be read *)
  | LibsndfileError (p : path)     (* [sf.read] or [sf.write] of a file that
                                      cannot be read or written *)
  | ValueError                     (* [np.concatenate] of no array, or of
                                      arrays of different shapes *)
  | UnboundLocalError              (* a local variable read before assignment *)
  | AttributeError                 (* a method called on [None] *)
  | ServiceError (code : N).       (* raised by a collaborator *)

(** Values of the configuration dictionary (parsed JSON). *)
Inductive value :=
  | JNull
  | JBool (b : bool)
  | JInt (z : Z)
  | JStr (s : string)
  | JList (l : list string).

(** Truth value of a configuration value in a condition. *)
Definition truthy (v : value) : bool :=
  match v with
  | JNull => false
  | JBool b => b
  | JInt z => negb (z =? 0)
  | JStr s => negb (String.eqb s "")
  | JList l => match l with [] => false | _ => true end
  end.

(** The lines [run_pipeline] prints for a script (the rest of the console
    output is not modelled). *)
Inductive line :=
  | ScriptComplete (i : nat) (files : nat)
  | ScriptFailed (script_file : path) (e : exn).

(** An array of NumPy holding audio: its frames along the first axis, and
    the shape of a frame, that is the dimensions after the first ([[]] for
    a one-dimensional array, [[c]] for frames of [c] channels). *)
Record ndarray (sample : Type) :=
  NDArray { frames : list sample; shape : list nat }.
Arguments NDArray {sample} _ _.
Arguments frames {sample} _.
Arguments shape {sample} _.

(** What [sf.read] gets from a sound file: the array and the sample rate. *)
Record sound (sample : Type) :=
  Sound { audio : ndarray sample; samplerate : Z }.
Arguments Sound {sample} _ _.
Arguments audio {sample} _.
Arguments samplerate {sample} _.

(** A file where sound files are kept: one that [sf.read] can read, or one
    that it cannot (a file cut short by a write that failed). *)
Inductive file (sample : Type) :=
  | Wav (s : sound sample)
  | Damaged.
Arguments Wav {sample} _.
Arguments Damaged {sample}.

(** [np.concatenate(arrays)] along the first axis: there must be an array,
    and all of them must have frames of the same shape. *)
Definition concatenate {sample} (arrays : list (ndarray sample))
    : option (ndarray sample) :=
  match arrays with
  | [] => None
  | a :: rest =>
      if forallb (fun b => bool_decide (shape b = shape a)) rest
      then Some (NDArray (concat (frames <$> arrays)) (shape a))
      else None
  end.

(** The collaborators: the speech synthesis service, the sound file library
    and the remote store.  Each has a state of its own, which its calls may
    change.  [write_outcome p data rate] is what [sf.write] does with the
    file [p]: [None] when the file is written, and then [sf.read] gets
    [stored data] from it, at the rate given; otherwise the exception it
    raises, with the file that it leaves at [p] if it has opened [p] before
    failing ([None] when [p] is as before: a file is never removed).
    [upload_file] of the drive manager catches every exception itself and
    its result is discarded by the processor, so that it is a change of the
    remote store only.  [stem] is [Path.stem] of pathlib. *)
Class Collaborators := {
  sample : Type;
  tts : Type;
  backend : Type;
  medium : Type;
  drive : Type;
  remote : Type;
  F5TTS_new : backend -> backend * (exn + tts);
  infer :
    tts -> path -> str -> str -> backend -> backend * (exn + ndarray sample);
  stored : ndarray sample -> ndarray sample;
  write_outcome :
    path -> ndarray sample -> Z -> medium ->
    medium * option (exn * option (file sample));
  upload_file :
    drive -> path -> option value -> gmap path (file sample) -> remote -> remote;
  stem : path -> string
}.

Section processor.
Context `{Collaborators}.

(** [self.base_dir] *)
Variable base_dir : path.

Definition temp_dir : path := joinpath base_dir "temp".
Definition output_dir : path :=
  joinpath (joinpath base_dir "output") "generated_audio".

(** The files on disk, the mutable fields of the processor, the state of
    the collaborators and the console. *)
Record world := World {
  sounds : gmap path (file sample);
  scripts : gmap path str;
  f5tts_model : option tts;
  drive_manager : option drive;
  synthesis : backend;
  disk : medium;
  store : remote;
  console : list line
}.

Definition set_sounds (f : gmap path (file sample)) (w : world) : world :=
  World f (scripts w) (f5tts_model w) (drive_manager w) (synthesis w)
    (disk w) (store w) (console w).
Definition set_f5tts_model (m : option tts) (w : world) : world :=
  World (sounds w) (scripts w) m (drive_manager w) (synthesis w) (disk w)
    (store w) (console w).
Definition set_synthesis (b : backend) (w : world) : world :=
  World (sounds w) (scripts w) (f5tts_model w) (drive_manager w) b (disk w)
    (store w) (console w).
Definition set_disk (d : medium) (w : world) : world :=
  World (sounds w) (scripts w) (f5tts_model w) (drive_manager w) (synthesis w)
    d (store w) (console w).
Definition set_store (r : remote) (w : world) : world :=
  World (sounds w) (scripts w) (f5tts_model w) (drive_manager w) (synthesis w)
    (disk w) r (console w).
Definition set_console (c : list line) (w : world) : world :=
  World (sounds w) (scripts w) (f5tts_model w) (drive_manager w) (synthesis w)
    (disk w) (store w) c.

(** *** Commands: a state and exception monad

    A command runs from a world and either returns a value or raises,
    leaving a world behind in both cases; [None] is a run that does not
    end (the segmentation loop out of fuel). *)
Inductive result (A : Type) :=
  | Return (a : A)
  | Raise (e : exn).
Arguments Return {A} _.
Arguments Raise {A} _.

Definition M (A : Type) : Type := world -> option (result A * world).

#[global] Instance M_ret : MRet M := fun A a w => Some (Return a, w).
#[global] Instance M_bind : MBind M := fun A B f m w =>
  match m w with
  | Some (Return a, w') => f a w'
  | Some (Raise e, w') => Some (Raise e, w')
  | None => None
  end.
#[global] Instance M_throw : MThrow exn M := fun A e w => Some (Raise e, w).

(** [try: body except Exception as e: handler] *)
Definition try_except {A} (body : M A) (handler : exn -> M A) : M A :=
  fun w =>
    match body w with
    | Some (Raise e, w') => handler e w'
    | r => r
    end.

Definition get {A} (field : world -> A) : M A := fun w => Some (Return (field w), w).
Definition modify (f : world -> world) : M unit := fun w => Some (Return (), f w).
Definition terminated {A} (o : option A) : M A :=
  fun w => match o with Some a => Some (Return a, w) | None => None end.
Definition print (l : line) : M unit :=
  modify (fun w => set_console (console w ++ [l]) w).

(** *** Files *)

(** [sf.read(str(p))]: the array and the sample rate. *)
Definition sf_read (p : path) : M (ndarray sample * Z) :=
  fun w =>
    match sounds w !! p with
    | Some (Wav s) => Some (Return (audio s, samplerate s), w)
    | _ => Some (Raise (LibsndfileError p), w)
    end.

(** What a failed [sf.write] to [p] leaves of the files. *)
Definition leftover (p : path) (remains : option (file sample))
    (files : gmap path (file sample)) : gmap path (file sample) :=
  match remains with
  | Some f => <[p := f]> files
  | None => files
  end.

(** [sf.write(str(p), data, rate)]: creates or replaces the file, or
    raises. *)
Definition sf_write (p : path) (data : ndarray sample) (rate : Z) : M unit :=
  fun w =>
    let '(d, r) := write_outcome p data rate (disk w) in
    match r with
    | None =>
        Some (Return (),
              set_sounds (<[p := Wav (Sound (stored data) rate)]> (sounds w))
                (set_disk d w))
    | Some (e, remains) =>
        Some (Raise e, set_sounds (leftover p remains (sounds w)) (set_disk d w))
    end.

(** [open(p, 'r').read()] *)
Definition read_text (p : path) : M str :=
  fun w =>
    match scripts w !! p with
    | Some t => Some (Return t, w)
    | None => Some (Raise (FileNotFoundError p), w)
    end.

(** [np.concatenate(arrays)] *)
Definition np_concatenate (arrays : list (ndarray sample))
    : M (ndarray sample) :=
  match concatenate arrays with
  | Some merged_audio => mret merged_audio
  | None => mthrow ValueError
  end.

(** *** [AudioProcessor.load_f5tts_model] *)
Definition load_f5tts_model : M unit :=
  fun w =>
    let '(b, r) := F5TTS_new (synthesis w) in
    match r with
    | inr model => Some (Return (), set_f5tts_model (Some model) (set_synthesis b w))
    | inl e => Some (Raise e, set_synthesis b w)
    end.

(** [self.f5tts_model.infer(ref_file=..., ref_text=..., gen_text=...)] *)
Definition call_infer (ref_file : path) (ref_text gen_text : str)
    : M (ndarray sample) :=
  fun w =>
    match f5tts_model w with
    | None => Some (Raise AttributeError, w)
    | Some model =>
        let '(b, r) := infer model ref_file ref_text gen_text (synthesis w) in
        match r with
        | inr audio_data => Some (Return audio_data, set_synthesis b w)
        | inl e => Some (Raise e, set_synthesis b w)
        end
    end.

(** [if self.f5tts_model is None: self.load_f5tts_model()] *)
Definition ensure_f5tts_model : M unit :=
  model ← get f5tts_model;
  if model is None then load_f5tts_model else mret ().

(** *** [AudioProcessor.generate_audio_chunk] *)
Definition generate_audio_chunk (text : str) (reference_audio : path)
    (reference_text : str) (output_path : path) : M bool :=
  ensure_f5tts_model;;
  try_except
    (audio_data ← call_infer reference_audio reference_text text;
     sf_write output_path audio_data 24000;;
     mret true)
    (fun e => mret false).

(** The [for audio_file in audio_files] loop of [merge_audio_files];
    [sr] is [None] as long as the variable is not bound. *)
Fixpoint read_segments (audio_files : list path)
    (audio_segments : list (ndarray sample)) (sr : option Z)
    : M (list (ndarray sample) * option Z) :=
  match audio_files with
  | [] => mret (audio_segments, sr)
  | audio_file :: rest =>
      '(audio, rate) ← sf_read audio_file;
      read_segments rest (audio_segments ++ [audio]) (Some rate)
  end.

(** *** [AudioProcessor.merge_audio_files] *)
Definition merge_audio_files (audio_files : list path) (output_path : path)
    : M bool :=
  try_except
    ('(audio_segments, sr) ← read_segments audio_files [] None;
     merged_audio ← np_concatenate audio_segments;
     rate ← (match sr with Some r => mret r | None => mthrow UnboundLocalError end);
     sf_write output_path merged_audio rate;;
     mret true)
    (fun e => mret false).

(** [self.drive_manager.upload_file(p, drive_folder_id)] under the guard
    [if upload_to_drive and self.drive_manager]. *)
Definition upload_if_enabled (upload_to_drive : bool) (p : path)
    (drive_folder_id : option value) : M unit :=
  manager ← get drive_manager;
  match manager with
  | Some d =>
      if upload_to_drive
      then modify (fun w =>
             set_store (upload_file d p drive_folder_id (sounds w) (store w)) w)
      else mret ()
  | None => mret ()
  end.

(** [self.temp_dir / f"{script_name}_chunk_{i+1:03d}.wav"] *)
Definition chunk_output (script_name : string) (i : nat) : path :=
  joinpath temp_dir (script_name +:+ "_chunk_" +:+ fmt03d (i + 1) +:+ ".wav").

(** [self.output_dir / f"{script_name}_complete.wav"] *)
Definition final_output (script_name : string) : path :=
  joinpath output_dir (script_name +:+ "_complete.wav").

(** The [for i, chunk in enumerate(chunks)] loop of [process_script],
    from index [i] on (the progress bar and the pause after each chunk
    change nothing in the world). *)
Fixpoint generate_chunks (script_name : string) (reference_audio : path)
    (reference_text : str) (upload_to_drive : bool)
    (drive_folder_id : option value) (chunks : list str) (i : nat)
    (generated_files : list path) : M (list path) :=
  match chunks with
  | [] => mret generated_files
  | chunk :: rest =>
      let out := chunk_output script_name i in
      ok ← generate_audio_chunk chunk reference_audio reference_text out;
      generated_files ←
        (if ok : bool
         then upload_if_enabled upload_to_drive out drive_folder_id;;
              mret (generated_files ++ [out])
         else mret generated_files);
      generate_chunks script_name reference_audio reference_text
        upload_to_drive drive_folder_id rest (S i) generated_files
  end.

(** The [if generated_files:] block that ends [process_script]. *)
Definition merge_chunks (script_name : string) (upload_to_drive : bool)
    (drive_folder_id : option value) (generated_files : list path)
    : M (list path) :=
  match generated_files with
  | [] => mret generated_files
  | _ =>
      let out := final_output script_name in
      ok ← merge_audio_files generated_files out;
      if ok : bool
      then upload_if_enabled upload_to_drive out drive_folder_id;;
           mret (generated_files ++ [out])
      else mret generated_files
  end.

(** *** [AudioProcessor.process_script] *)
Definition process_script (script_path reference_audio : path)
    (reference_text : str) (upload_to_drive : bool)
    (drive_folder_id : option value) : M (list path) :=
  content ← read_text script_path;
  let script_text := strip content in
  chunks ← terminated (chunk_text script_text 500);
  let script_name := stem script_path in
  generated_files ←
    generate_chunks script_name reference_audio reference_text
      upload_to_drive drive_folder_id chunks 0 [];
  merge_chunks script_name upload_to_drive drive_folder_id generated_files.

(** *** The script loop of [run_pipeline]

    [for i, script_file in enumerate(script_files, 1)], from index [i] on. *)
Definition config_get (config : gmap string value) (key : string)
    (default : value) : value :=
  match config !! key with Some v => v | None => default end.

Fixpoint process_each_script (config : gmap string value)
    (reference_audio_path : path) (reference_text : str)
    (script_files : list path) (i : nat) (all_generated_files : list path)
    : M (list path) :=
  match script_files with
  | [] => mret all_generated_files
  | script_file :: rest =>
      all_generated_files ←
        try_except
          (generated_files ←
             process_script script_file reference_audio_path reference_text
               (truthy (config_get config "auto_upload" (JBool true)))
               (config !! "output_folder_id");
           print (ScriptComplete i (length generated_files));;
           mret (all_generated_files ++ generated_files))
          (fun e =>
             print (ScriptFailed script_file e);;
             mret all_generated_files);
      process_each_script config reference_audio_path reference_text rest
        (S i) all_generated_files
  end.

(** The indices and the audio of the chunks whose [infer] call succeeds,
    when the calls are made in order from the state [b] of the service;
    [i] is the index of the first chunk. *)
Fixpoint synthesized (model : tts) (reference_audio : path)
    (reference_text : str) (b : backend) (chunks : list str) (i : nat)
    : list (nat * ndarray sample) :=
  match chunks with
  | [] => []
  | chunk :: rest =>
      let '(b', r) := infer model reference_audio reference_text chunk b in
      match r with
      | inr audio_data =>
          (i, audio_data) ::
          synthesized model reference_audio reference_text b' rest (S i)
      | inl _ => synthesized model reference_audio reference_text b' rest (S i)
      end
  end.

(** The indices and the audio of the chunks that [generate_audio_chunk]
    turns into a file: those whose [infer] call succeeds and whose chunk
    file is then written, when the calls are made in order from the states
    [b] of the service and [d] of the sound file library. *)
Fixpoint generated (script_name : string) (model : tts)
    (reference_audio : path) (reference_text : str) (b : backend) (d : medium)
    (chunks : list str) (i : nat) : list (nat * ndarray sample) :=
  match chunks with
  | [] => []
  | chunk :: rest =>
      let '(b', r) := infer model reference_audio reference_text chunk b in
      match r with
      | inr audio_data =>
          let '(d', o) :=
            write_outcome (chunk_output script_name i) audio_data 24000 d in
          match o with
          | None =>
              (i, audio_data) ::
              generated script_name model reference_audio reference_text b' d'
                rest (S i)
          | Some _ =>
              generated script_name model reference_audio reference_text b' d'
                rest (S i)
          end
      | inl _ =>
          generated script_name model reference_audio reference_text b' d
            rest (S i)
      end
  end.

(** [sf.read] can read the file [p]. *)
Definition readable (w : world) (p : path) : Prop :=
  exists s, sounds w !! p = Some (Wav s).
End processor.

Arguments Return {A} _.
Arguments Raise {A} _.

(** A command that ends from every world, by returning or by raising. *)
Definition total `{Collaborators} {A} (m : M A) : Prop :=
  forall w, exists r w', m w = Some (r, w').

(** *** A small instance, to run the processor on *)

(** [PurePosixPath(p).stem] for a path that ends with the name of a file:
    the last component of the path, without its last suffix (a dot that
    starts or ends the component starts no suffix). *)
Fixpoint after_last (c : ascii) (s : list ascii) : list ascii :=
  match s with
  | [] => []
  | x :: s' =>
      if bool_decide (c ∈ s') then after_last c s'
      else if Ascii.eqb x c then s' else s
  end.

Fixpoint before_last (c : ascii) (s : list ascii) : list ascii :=
  match s with
  | [] => []
  | x :: s' => if bool_decide (c ∈ s') then x :: before_last c s' else []
  end.

Definition posix_stem (p : path) : string :=
  let name := after_last "/" (String.list_ascii_of_string p) in
  match name with
  | [] => EmptyString
  | x :: rest =>
      if bool_decide ("."%char ∈ rest) &&
         negb (bool_decide (last rest = Some "."%char))
      then String.string_of_list_ascii (x :: before_last "." rest)
      else String.string_of_list_ascii name
  end.

(** Sixteen-bit samples: what a WAV file keeps of an integer. *)
Definition pcm16 (a : ndarray Z) : ndarray Z :=
  NDArray ((fun x => Z.max (-32768) (Z.min 32767 x)) <$> frames a) (shape a).

(** Samples are integers; the service counts its calls, returns the code
    points of the text as a one-dimensional array and fails at its third
    call (index 2); every file is written; the remote store lists the
    uploaded paths. *)
Definition demo : Collaborators := {|
  sample := Z;
  tts := unit;
  backend := nat;
  medium := unit;
  drive := unit;
  remote := list path;
  F5TTS_new := fun b => (b, inr ());
  infer := fun _ _ _ gen_text b =>
    (S b, if (b =? 2)%nat then inl (ServiceError 1)
          else inr (NDArray (Z.of_N <$> gen_text) []));
  stored := pcm16;
  write_outcome := fun _ _ _ d => (d, None);
  upload_file := fun _ p _ _ r => r ++ [p];
  stem := posix_stem
|}.

Definition demo_world (files : list (path * str)) : @world demo :=
  @World demo ∅ (list_to_map files) (Some ()) (Some ()) 0%nat () [] [].

(** Two thousand and one characters without a sentence end. *)
Definition long_text : str := replicate 2001 120%N.

(** A world in which the next call of the service is the one that fails. *)
Definition third_call : @world demo :=
  @World demo ∅ ∅ (Some ()) (Some ()) 2%nat () [] [].

(** Two sound files to merge. *)
Definition two_sounds : @world demo :=
  @World demo
    (<["a.wav"%string := Wav (Sound (NDArray [1; 2] []) 24000)]>
       (<["b.wav"%string := Wav (Sound (NDArray [3] []) 24000)]> ∅))
    ∅ (Some ()) (Some ()) 0%nat () [] [].

(** A script that cannot be read, followed by one that can. *)
Definition two_scripts : @world demo :=
  demo_world [("ok.txt"%string, of_string "Hi there.")].

(** A short script and a configuration asking for chunks of three
    characters. *)
Definition short_script : @world demo :=
  demo_world [("s.txt"%string, of_string "abcdefgh")].
Definition small_chunks : gmap string value := {["chunk_size"%string := JInt 3]}.

(** A script of five segments. *)
Definition five_segments : @world demo :=
  demo_world [("long.txt"%string, long_text)].

(** *** Relations between the world before and after a command *)

(** Every run of the command takes a world to one related to it by [R]. *)
Definition keeps `{Collaborators} (R : world -> world -> Prop) {A} (m : M A)
    : Prop :=
  forall w r w', m w = Some (r, w') -> R w w'.

(** None of the status lines of [run_pipeline] is printed. *)
Definition silent `{Collaborators} (w w' : world) : Prop :=
  console w' = console w.

(** The script files and the drive manager are as before; a model that
    was loaded is still the one in use; no sound file has disappeared, and
    the sound files at the paths outside [own] are as before; the remote
    store is as before when uploads are off. *)
Definition tidy `{Collaborators} (own : path -> Prop) (upload_to_drive : bool)
    (w w' : world) : Prop :=
  scripts w' = scripts w /\
  drive_manager w' = drive_manager w /\
  (forall model, f5tts_model w = Some model -> f5tts_model w' = Some model) /\
  (forall p, is_Some (sounds w !! p) -> is_Some (sounds w' !! p)) /\
  (forall p, ~ own p -> sounds w' !! p = sounds w !! p) /\
  (upload_to_drive = false \/ drive_manager w = None -> store w' = store w).

(** The sound files a script may write: its chunk files and its merged
    file. *)
Definition own_files `{Collaborators} (base_dir : path) (script_name : string)
    (p : path) : Prop :=
  (exists i, p = chunk_output base_dir script_name i) \/
  p = final_output base_dir script_name.

(** The lines of the console tell the scripts one by one, from index [i]
    on: a script that completed, with its index, or a script that failed,
    with its path. *)
Fixpoint reports (i : nat) (script_files : list path) (lines : list line)
    : Prop :=
  match script_files, lines with
  | [], [] => True
  | script_file :: script_files', l :: lines' =>
      ((exists n, l = ScriptComplete i n) \/
       (exists e, l = ScriptFailed script_file e)) /\
      reports (S i) script_files' lines'
  | _, _ => False
  end.

(** The number of files the lines report. *)
Fixpoint files_reported (lines : list line) : nat :=
  match lines with
  | [] => 0
  | ScriptComplete _ n :: lines' => n + files_reported lines'
  | ScriptFailed _ _ :: lines' => files_reported lines'
  end.

(** An instance whose model never loads. *)
Definition no_model : Collaborators := {|
  sample := Z;
  tts := unit;
  backend := nat;
  drive := unit;
  medium := unit;
  remote := list path;
  F5TTS_new := fun b => (S b, inl (ServiceError 7));
  infer := fun _ _ _ gen_text b => (S b, inr (NDArray (Z.of_N <$> gen_text) []));
  stored := pcm16;
  write_outcome := fun _ _ _ d => (d, None);
  upload_file := fun _ p _ _ r => r ++ [p];
  stem := posix_stem
|}.

Definition unloaded : @world no_model :=
  @World no_model ∅ (list_to_map [("ok.txt"%string, of_string "Hi there.")])
    None None 0%nat () [] [].

(** An instance whose sound file library counts its writes and fails at the
    fifth one (index 4), leaving the file it was writing damaged; the
    service is the one of [demo], which fails at its third call. *)
Definition worn_disk : Collaborators := {|
  sample := Z;
  tts := unit;
  backend := nat;
  medium := nat;
  drive := unit;
  remote := list path;
  F5TTS_new := fun b => (b, inr ());
  infer := fun _ _ _ gen_text b =>
    (S b, if (b =? 2)%nat then inl (ServiceError 1)
          else inr (NDArray (Z.of_N <$> gen_text) []));
  stored := pcm16;
  write_outcome := fun p _ _ d =>
    (S d, if (d =? 4)%nat then Some (LibsndfileError p, Some Damaged) else None);
  upload_file := fun _ p _ _ r => r ++ [p];
  stem := posix_stem
|}.

(** A world of this instance, after [d] writes. *)
Definition worn_world (d : nat) (files : list (path * str)) : @world worn_disk :=
  @World worn_disk ∅ (list_to_map files) (Some ()) (Some ()) 0%nat d [] [].

(** A world in which the next write is the one that fails, with a sound
    file where it goes. *)
Definition fifth_write : @world worn_disk :=
  @World worn_disk {["out.wav"%string := Wav (Sound (NDArray [7] []) 24000)]} ∅
    (Some ()) (Some ()) 0%nat 4%nat [] [].

(** A sound file of one channel and one of two. *)
Definition mono_and_stereo : @world demo :=
  @World demo
    (<["a.wav"%string := Wav (Sound (NDArray [1; 2] []) 24000)]>
       (<["s.wav"%string := Wav (Sound (NDArray [3] [2%nat]) 24000)]> ∅))
    ∅ (Some ()) (Some ()) 0%nat () [] [].

(** A script whose only segment is synthesized by the call that fails. *)
Definition failing_script : @world demo :=
  @World demo ∅ (list_to_map [("ok.txt"%string, of_string "Hi there.")])
    (Some ()) (Some ()) 2%nat () [] [].

(** ** The choice of the scripts in [run_pipeline]

    [exists_] tells which paths exist, [script_path] is
    [processor.scripts_dir / script_name], and [txt_files] is what
    [processor.scripts_dir.glob('*.txt')] lists. *)

(** How the search for the scripts ends. *)
Inductive selection :=
  | Selected (script_files : list path)
  | SystemExit (code : Z)     (* [sys.exit(code)] *)
  | TypeError.                (* a value that cannot be iterated *)

(** [for script_name in ...]: the scripts that exist are appended. *)
Fixpoint existing_scripts (exists_ : path -> bool) (script_path : string -> path)
    (names : list string) (script_files : list path) : list path :=
  match names with
  | [] => script_files
  | script_name :: rest =>
      if exists_ (script_path script_name)
      then existing_scripts exists_ script_path rest
             (script_files ++ [script_path script_name])
      else existing_scripts exists_ script_path rest script_files
  end.

(** [if not script_files: sys.exit(1)] *)
Definition some_script (script_files : list path) : selection :=
  match script_files with
  | [] => SystemExit 1
  | _ => Selected script_files
  end.

Definition find_script_files (config : gmap string value)
    (exists_ : path -> bool) (script_path : string -> path)
    (txt_files : list path) : selection :=
  match config !! "scripts" with
  | Some v =>
      if truthy v then
        match v with
        | JList names =>
            some_script (existing_scripts exists_ script_path names [])
        | JStr s =>
            some_script
              (existing_scripts exists_ script_path
                 ((fun c => String c EmptyString) <$> String.list_ascii_of_string s)
                 [])
        | _ => TypeError
        end
      else some_script txt_files
  | None => some_script txt_files
  end.

(** ** The drive manager (google_drive_manager.py) *)

(** An entry of a listing: the fields the manager reads. *)
Record gfile := GFile { file_title : string; file_id : string; mimeType : string }.

(** The calls of PyDrive the manager makes, on a state [gdrive] of the
    remote drive: the listing of a folder, and the creation and upload of a
    file with a title, optional parents and the content of a local file,
    which yields its identifier.  [path_name] is [Path.name]. *)
Class PyDrive := {
  gdrive : Type;
  content : Type;
  GetList : string -> gdrive -> exn + list gfile;
  Upload : string -> option string -> content -> gdrive -> gdrive * (exn + string);
  path_name : path -> string
}.

Module DriveManager.
Section manager.
Context `{PyDrive}.

(** [DriveManager.list_files_in_folder] *)
Definition list_files_in_folder (folder_id : string) (g : gdrive) : list gfile :=
  match GetList folder_id g with
  | inr file_list => file_list
  | inl _ => []
  end.

(** The [for existing_file in existing_files] loop of [upload_file]. *)
Fixpoint existing_id (existing_files : list gfile) (file_name : string)
    : option string :=
  match existing_files with
  | [] => None
  | existing_file :: rest =>
      if String.eqb (file_title existing_file) file_name
      then Some (file_id existing_file)
      else existing_id rest file_name
  end.

(** Truth value of [folder_id], an optional string. *)
Definition given (folder_id : option string) : option string :=
  match folder_id with
  | Some fid => if String.eqb fid "" then None else Some fid
  | None => None
  end.

(** [DriveManager.upload_file]; [local] holds the local files. *)
Definition upload_file (local : gmap path content) (file_path : path)
    (folder_id : option string) (overwrite : bool) (g : gdrive)
    : gdrive * option string :=
  match local !! file_path with
  | None => (g, None)
  | Some data =>
      let found :=
        match given folder_id with
        | Some fid =>
            if negb overwrite
            then existing_id (list_files_in_folder fid g) (path_name file_path)
            else None
        | None => None
        end in
      match found with
      | Some i => (g, Some i)
      | None =>
          let '(g', r) := Upload (path_name file_path) (given folder_id) data g in
          (g', match r with inr i => Some i | inl _ => None end)
      end
  end.
End manager.
End DriveManager.

(** A small drive: the files with their parent folder, in the order of
    their creation; a new file gets the next number as identifier. *)
Definition toy_drive : PyDrive := {|
  gdrive := list (string * gfile);
  content := str;
  GetList := fun folder_id g =>
    inr (snd <$> filter (fun e => String.eqb (fst e) folder_id = true) g);
  Upload := fun title parents data g =>
    let i := DecimalString.NilEmpty.string_of_uint (Nat.to_uint (length g)) in
    (g ++ [(default "root"%string parents, GFile title i "audio/wav")], inr i);
  path_name := fun p => p
|}.

Definition one_local_file : gmap path str := {["a.wav"%string := of_string "abc"]}.

(** A configuration naming three scripts, of which the second is missing. *)
Definition three_named : gmap string value :=
  {["scripts"%string := JList ["a.txt"; "b.txt"; "c.txt"]%string]}.

(** ** The transcription of the reference audio *)

(** Whisper: loading a model of a given size and transcribing a file with
    it, on a state [ears] of the library; both may raise. *)
Class Whisper := {
  whisper : Type;
  ears : Type;
  load_model : string -> ears -> ears * (exn + whisper);
  transcribe : whisper -> path -> ears -> ears * (exn + str)
}.

(** [self.whisper_model], with the state of the library. *)
Record listener `{Whisper} := Listener {
  whisper_model : option whisper;
  hearing : ears
}.
Arguments Listener {H} _ _.
Arguments whisper_model {H} _.
Arguments hearing {H} _.

(** [AudioProcessor.load_whisper_model]: the exception of a failed load is
    raised again. *)
Definition load_whisper_model `{Whisper} (model_size : string) (l : listener)
    : listener * (exn + unit) :=
  match load_model model_size (hearing l) with
  | (h, inr model) => (Listener (Some model) h, inr ())
  | (h, inl e) => (Listener (whisper_model l) h, inl e)
  end.

(** [AudioProcessor.transcribe_audio]: the model is loaded with the default
    size ['base'] when there is none; the text of the result is trimmed;
    an exception of the transcription is raised again. *)
Definition transcribe_audio `{Whisper} (audio_path : path) (l : listener)
    : listener * (exn + str) :=
  let '(l1, loaded) :=
    match whisper_model l with
    | None => load_whisper_model "base" l
    | Some _ => (l, inr ())
    end in
  match loaded with
  | inl e => (l1, inl e)
  | inr _ =>
      match whisper_model l1 with
      | None => (l1, inl AttributeError)
      | Some model =>
          match transcribe model audio_path (hearing l1) with
          | (h, inr text) => (Listener (whisper_model l1) h, inr (strip text))
          | (h, inl e) => (Listener (whisper_model l1) h, inl e)
          end
      end
  end.

(** A Whisper that hears the same sentence in every file. *)
Definition toy_whisper : Whisper := {|
  whisper := unit;
  ears := nat;
  load_model := fun _ h => (S h, inr ());
  transcribe := fun _ _ h => (S h, inr (of_string "  Hello there. "))
|}.

(** A thousand characters without a sentence end. *)
Definition plain_text : str := replicate 1000 120%N.

(** ** Slices *)

Section slices.
Implicit Types (s : str) (a b c : Z).

Lemma len_nonneg s : 0 <= len s.
Proof. unfold len. lia. Qed.

Lemma len_app s1 s2 : len (s1 ++ s2) = len s1 + len s2.
Proof. unfold len. rewrite length_app. lia. Qed.

Lemma clamp_inside n i : 0 <= i <= n -> clamp n i = i.
Proof. unfold clamp. intros H. destruct (Z.ltb_spec i 0); lia. Qed.

Lemma clamp_beyond n i : 0 <= n <= i -> clamp n i = n.
Proof. unfold clamp. intros H. destruct (Z.ltb_spec i 0); lia. Qed.

Lemma slice_inside s a b :
  0 <= a <= b -> b <= len s ->
  slice s a b = take (Z.to_nat (b - a)) (drop (Z.to_nat a) s).
Proof.
  intros Hab Hb. unfold slice. rewrite !clamp_inside by lia. reflexivity.
Qed.

Lemma slice_from_inside s a :
  0 <= a <= len s -> slice_from s a = slice s a (len s).
Proof.
  intros Ha. unfold slice_from. rewrite slice_inside by lia.
  rewrite clamp_inside by lia. rewrite take_ge; [reflexivity|].
  rewrite length_drop. unfold len in *. lia.
Qed.

Lemma slice_full s : slice s 0 (len s) = s.
Proof.
  rewrite slice_inside by (pose proof (len_nonneg s); lia).
  change (Z.to_nat 0) with 0%nat. rewrite drop_0, Z.sub_0_r.
  rewrite take_ge; [reflexivity|]. unfold len. lia.
Qed.

Lemma slice_app s a b c :
  0 <= a <= b -> b <= c <= len s ->
  slice s a b ++ slice s b c = slice s a c.
Proof.
  intros Hab Hbc. rewrite !slice_inside by lia.
  replace (Z.to_nat b) with (Z.to_nat a + Z.to_nat (b - a))%nat by lia.
  rewrite <- drop_drop.
  replace (Z.to_nat (c - a)) with (Z.to_nat (b - a) + Z.to_nat (c - b))%nat by lia.
  rewrite <- take_take_drop. reflexivity.
Qed.

Lemma len_slice s a b :
  0 <= a <= b -> b <= len s -> len (slice s a b) = b - a.
Proof.
  intros Hab Hb. rewrite slice_inside by lia. unfold len in *.
  rewrite length_take, length_drop. lia.
Qed.

Lemma slice_empty s a : 0 <= a <= len s -> slice s a a = [].
Proof.
  intros Ha. rewrite slice_inside by lia. rewrite Z.sub_diag. reflexivity.
Qed.
End slices.

(** ** [startswith] and [rfind] against occurrences *)

Section occurrences.
Implicit Types (s sub : str) (i j r : Z).

Lemma startswith_spec s sub :
  startswith s sub = true <-> exists post, s = sub ++ post.
Proof.
  revert s. induction sub as [|p sub IH]; intros s; simpl.
  - split; [intros _; exists s; reflexivity | reflexivity].
  - destruct s as [|c s].
    + split; [discriminate | intros [post H]; discriminate].
    + rewrite andb_true_iff, N.eqb_eq, IH. split.
      * intros [-> [post ->]]. exists post. reflexivity.
      * intros [post H]. injection H as -> ->. eauto.
Qed.

Lemma occurs_at_bounds s sub i :
  occurs_at s sub i -> 0 <= i /\ i + len sub <= len s.
Proof.
  intros (pre & post & -> & <-). rewrite !len_app.
  pose proof (len_nonneg pre). pose proof (len_nonneg post). lia.
Qed.

Lemma occurs_at_0 s sub : occurs_at s sub 0 <-> startswith s sub = true.
Proof.
  rewrite startswith_spec. split.
  - intros (pre & post & -> & Hpre). destruct pre; [|discriminate].
    exists post. reflexivity.
  - intros [post ->]. exists [], post. split; reflexivity.
Qed.

Lemma occurs_at_cons c s sub i :
  0 <= i -> occurs_at (c :: s) sub (i + 1) <-> occurs_at s sub i.
Proof.
  intros Hi. split.
  - intros (pre & post & Heq & Hpre). destruct pre as [|c' pre].
    + unfold len in Hpre. simpl in Hpre. lia.
    + injection Heq as -> ->. exists pre, post. split; [reflexivity|].
      unfold len in *. simpl in Hpre. lia.
  - intros (pre & post & -> & Hpre). exists (c :: pre), post.
    split; [reflexivity|]. unfold len in *. simpl. lia.
Qed.

Lemma occurs_at_nil sub i : occurs_at [] sub i -> sub = [] /\ i = 0.
Proof.
  intros (pre & post & Heq & Hpre). symmetry in Heq.
  apply app_eq_nil in Heq as [-> Heq]. apply app_eq_nil in Heq as [-> _].
  split; [reflexivity | symmetry; exact Hpre].
Qed.

(** What [rfind_from] returns: either [-1] and there is no occurrence,
    or the offset of the last occurrence. *)
Lemma rfind_from_spec s sub i :
  0 <= i ->
  (rfind_from s sub i = -1 /\ forall j, ~ occurs_at s sub j) \/
  (i <= rfind_from s sub i /\
   occurs_at s sub (rfind_from s sub i - i) /\
   forall j, occurs_at s sub j -> j <= rfind_from s sub i - i).
Proof.
  revert i. induction s as [|c s IH]; intros i Hi; simpl.
  - destruct sub as [|p sub]; simpl.
    + right. split; [lia|]. rewrite Z.sub_diag. split.
      * apply occurs_at_0. reflexivity.
      * intros j Hj. apply occurs_at_nil in Hj as [_ ->]. lia.
    + left. split; [reflexivity|]. intros j Hj.
      apply occurs_at_nil in Hj as [Hj _]. discriminate.
  - destruct (IH (i + 1)) as [[Hr Hnone] | (Hle & Hocc & Hmax)]; [lia | |].
    + rewrite Hr. simpl.
      destruct (startswith (c :: s) sub) eqn:Hsw.
      * right. split; [lia|]. rewrite Z.sub_diag. split.
        -- apply occurs_at_0. exact Hsw.
        -- intros j Hj. destruct (Z.eq_dec j 0) as [->|Hne]; [lia|].
           pose proof (occurs_at_bounds _ _ _ Hj) as [Hj0 _].
           replace j with ((j - 1) + 1) in Hj by lia.
           apply occurs_at_cons in Hj; [|lia]. exfalso. eapply Hnone, Hj.
      * left. split; [reflexivity|]. intros j Hj.
        destruct (Z.eq_dec j 0) as [->|Hne].
        -- apply occurs_at_0 in Hj. congruence.
        -- pose proof (occurs_at_bounds _ _ _ Hj) as [Hj0 _].
           replace j with ((j - 1) + 1) in Hj by lia.
           apply occurs_at_cons in Hj; [|lia]. eapply Hnone, Hj.
    + destruct (Z.eqb_spec (rfind_from s sub (i + 1)) (-1)) as [Heq|Hne];
        [lia|].
      right. split; [lia|]. split.
      * replace (rfind_from s sub (i + 1) - i)
          with ((rfind_from s sub (i + 1) - (i + 1)) + 1) by lia.
        apply occurs_at_cons; [lia | exact Hocc].
      * intros j Hj. destruct (Z.eq_dec j 0) as [->|Hj0]; [lia|].
        pose proof (occurs_at_bounds _ _ _ Hj) as [Hjn _].
        replace j with ((j - 1) + 1) in Hj by lia.
        apply occurs_at_cons in Hj; [|lia]. apply Hmax in Hj. lia.
Qed.

Lemma rfind_none s sub :
  rfind s sub = -1 <-> forall j, ~ occurs_at s sub j.
Proof.
  unfold rfind.
  destruct (rfind_from_spec s sub 0) as [[Hr Hnone] | (Hle & Hocc & _)];
    [lia | |].
  - split; [intros _; exact Hnone | intros _; exact Hr].
  - split; [lia|]. intros Hnone. exfalso. eapply Hnone, Hocc.
Qed.

Lemma rfind_last s sub r :
  rfind s sub = r -> r <> -1 ->
  occurs_at s sub r /\ forall j, occurs_at s sub j -> j <= r.
Proof.
  unfold rfind. intros <- Hne.
  destruct (rfind_from_spec s sub 0) as [[Hr _] | (_ & Hocc & Hmax)];
    [lia | congruence |].
  rewrite Z.sub_0_r in *. split; assumption.
Qed.
End occurrences.

(** ** [strip] removes white space only, and only at the two ends *)

Section stripping.
Implicit Types (s : str) (c : char).

Lemma lstrip_split s : exists l, s = l ++ lstrip s /\ blank l.
Proof.
  induction s as [|c s (l & Heq & Hl)]; simpl.
  - exists []. split; [reflexivity | constructor].
  - destruct (isspace c) eqn:Hc.
    + exists (c :: l). split; [simpl; congruence | constructor; assumption].
    + exists []. split; [reflexivity | constructor].
Qed.

Lemma rstrip_split s : exists r, s = rstrip s ++ r /\ blank r.
Proof.
  unfold rstrip. destruct (lstrip_split (reverse s)) as (l & Heq & Hl).
  exists (reverse l). split.
  - rewrite <- reverse_app, <- Heq, reverse_involutive. reflexivity.
  - unfold blank. rewrite Forall_reverse. exact Hl.
Qed.

Lemma strip_split s :
  exists l r, s = l ++ strip s ++ r /\ blank l /\ blank r.
Proof.
  destruct (lstrip_split s) as (l & Hl & Bl).
  destruct (rstrip_split (lstrip s)) as (r & Hr & Br).
  exists l, r. unfold strip. rewrite <- Hr. auto.
Qed.

Lemma lstrip_keeps s c : c ∈ s -> isspace c = false -> c ∈ lstrip s.
Proof.
  induction s as [|d s IH]; simpl; intros Hin Hc; [exact Hin|].
  destruct (isspace d) eqn:Hd; [|exact Hin].
  apply elem_of_cons in Hin as [->|Hin]; [congruence | auto].
Qed.

Lemma strip_keeps s c : c ∈ s -> isspace c = false -> c ∈ strip s.
Proof.
  intros Hin Hc. unfold strip, rstrip.
  apply elem_of_reverse, lstrip_keeps; [|exact Hc].
  apply elem_of_reverse, lstrip_keeps; assumption.
Qed.

Lemma lstrip_blank s : blank s -> lstrip s = [].
Proof.
  induction 1 as [|c s Hc _ IH]; simpl; [reflexivity|]. rewrite Hc. exact IH.
Qed.

Lemma strip_nil s : strip s = [] <-> blank s.
Proof.
  split.
  - intros Hs. destruct (strip_split s) as (l & r & Heq & Bl & Br).
    rewrite Hs in Heq. rewrite Heq. apply Forall_app. split; assumption.
  - intros Hb. unfold strip. rewrite lstrip_blank by exact Hb. reflexivity.
Qed.
End stripping.

(** ** The delimiter search *)

Section sentence_end.
Implicit Types (chunk d : str) (ds : list str) (cur e i j : Z).

Lemma find_sentence_end_skip chunk ds1 ds2 cur e :
  Forall (absent chunk) ds1 ->
  find_sentence_end chunk (ds1 ++ ds2) cur e = find_sentence_end chunk ds2 cur e.
Proof.
  induction 1 as [|d ds1 Hd _ IH]; simpl; [reflexivity|].
  rewrite (proj2 (rfind_none chunk d) Hd). simpl. exact IH.
Qed.


(** The search either keeps the hard cut, when no delimiter occurs, or
    stops right after an occurrence of one of the delimiters. *)
Lemma find_sentence_end_cases chunk ds cur e :
  (Forall (absent chunk) ds /\ find_sentence_end chunk ds cur e = e) \/
  exists d i, d ∈ ds /\ occurs_at chunk d i /\
              find_sentence_end chunk ds cur e = cur + i + len d.
Proof.
  induction ds as [|d ds IH]; simpl; [left; split; [constructor | reflexivity]|].
  destruct (Z.eqb_spec (rfind chunk d) (-1)) as [Hr|Hr]; simpl.
  - destruct IH as [[Hno IH] | (d' & i & Hin & Hocc & IH)].
    + left. split; [|exact IH]. constructor; [|exact Hno].
      exact (proj1 (rfind_none chunk d) Hr).
    + right. exists d', i. split; [apply elem_of_cons; auto | auto].
  - right. exists d, (rfind chunk d). split; [apply elem_of_cons; auto|].
    split; [|reflexivity]. apply rfind_last; [reflexivity | exact Hr].
Qed.

Lemma len_delimiter d : d ∈ delimiters -> len d = 2.
Proof.
  unfold delimiters. rewrite !elem_of_cons, elem_of_nil.
  intros [->|[->|[->|[->|[->|[->|[]]]]]]]; reflexivity.
Qed.

(** Progress of one iteration that does not end the loop. *)
Lemma sentence_end_progress text max_chars cur :
  1 <= max_chars -> 0 <= cur -> cur + max_chars < len text ->
  let chunk := slice text cur (cur + max_chars) in
  let e := find_sentence_end chunk delimiters cur (cur + max_chars) in
  (Forall (absent chunk) delimiters /\ e = cur + max_chars \/
   Exists (occurs_in chunk) delimiters /\ cur + 2 <= e) /\
  cur < e <= cur + max_chars.
Proof.
  intros Hmax Hcur Hend chunk e.
  assert (Hlen : len chunk = max_chars).
  { unfold chunk. rewrite len_slice by lia. lia. }
  destruct (find_sentence_end_cases chunk delimiters cur (cur + max_chars))
    as [[Hno He] | (d & i & Hin & Hocc & He)]; fold e in He.
  - split; [left; split; assumption | lia].
  - pose proof (len_delimiter _ Hin). pose proof (occurs_at_bounds _ _ _ Hocc).
    split; [right; split; [|lia] | lia].
    apply Exists_exists. exists d. split; [exact Hin | exists i; exact Hocc].
Qed.
End sentence_end.

(** ** The loop of [chunk_text] *)

Section chunk_loop_facts.
Variables (text : str) (max_chars : Z).
Hypothesis max_pos : 1 <= max_chars.

Lemma chained_hi a ps b : chained a ps b -> a <= b.
Proof.
  revert a. induction ps as [|p ps IH]; simpl; intros a.
  - lia.
  - intros (_ & Hle & Hch). apply IH in Hch. lia.
Qed.

Lemma chained_concat a ps b :
  0 <= a -> b <= len text -> chained a ps b ->
  concat (raw text <$> ps) = slice text a b.
Proof.
  revert a. induction ps as [|p ps IH]; intros a Ha Hb Hch; simpl in Hch.
  - subst b. rewrite slice_empty by lia. reflexivity.
  - destruct Hch as (Hlo & Hle & Hch). pose proof (chained_hi _ _ _ Hch).
    rewrite fmap_cons. cbn [concat].
    rewrite (IH (hi p)) by (assumption || lia).
    unfold raw. rewrite Hlo. apply slice_app; lia.
Qed.

(** One iteration that goes on: the cursor moves to the boundary, which
    lies strictly further. *)
Lemma chunk_loop_step fuel chunks cur :
  0 <= cur -> cur + max_chars < len text ->
  exists e,
    chunk_loop (S fuel) text max_chars chunks cur =
    chunk_loop fuel text max_chars
      (chunks ++ [Piece cur e (strip (slice text cur e))]) e /\
    e = find_sentence_end (slice text cur (cur + max_chars)) delimiters
          cur (cur + max_chars) /\
    (Forall (absent (slice text cur (cur + max_chars))) delimiters /\
     e = cur + max_chars \/
     Exists (occurs_in (slice text cur (cur + max_chars))) delimiters /\
     cur + 2 <= e) /\
    cur < e <= cur + max_chars.
Proof.
  intros Hcur Hend. eexists. split; [|split; [reflexivity|]].
  - simpl. destruct (Z.ltb_spec cur (len text)); [|lia].
    destruct (Z.geb_spec (cur + max_chars) (len text)); [lia|]. reflexivity.
  - apply sentence_end_progress; assumption.
Qed.

(** The last iteration. *)
Lemma chunk_loop_last fuel chunks cur :
  0 <= cur < len text -> len text <= cur + max_chars ->
  chunk_loop (S fuel) text max_chars chunks cur =
  Some (chunks ++ [Piece cur (len text) (strip (slice text cur (len text)))]).
Proof.
  intros Hcur Hend. simpl. destruct (Z.ltb_spec cur (len text)); [|lia].
  destruct (Z.geb_spec (cur + max_chars) (len text)); [|lia].
  rewrite slice_from_inside by lia. reflexivity.
Qed.

(** From any cursor inside the text the loop ends, within one iteration
    per remaining character, and appends contiguous non-empty pieces. *)
Lemma chunk_loop_run n cur :
  0 <= cur <= len text -> len text - cur <= Z.of_nat n ->
  exists ps,
    (forall fuel chunks, (n < fuel)%nat ->
       chunk_loop fuel text max_chars chunks cur = Some (chunks ++ ps)) /\
    chained cur ps (len text) /\
    Forall (fun p => lo p < hi p /\ body p = strip (raw text p)) ps.
Proof.
  revert cur. induction n as [|n IH]; intros cur Hcur Hn.
  - exists []. split; [|split; [simpl; lia | constructor]].
    intros [|fuel] chunks Hf; [lia|]. simpl.
    destruct (Z.ltb_spec cur (len text)); [lia|]. rewrite app_nil_r.
    reflexivity.
  - destruct (Z.eq_dec cur (len text)) as [Heq|Hne].
    { exists []. split; [|split; [simpl; lia | constructor]].
      intros [|fuel] chunks Hf; [lia|]. simpl.
      destruct (Z.ltb_spec cur (len text)); [lia|]. rewrite app_nil_r.
      reflexivity. }
    destruct (Z_lt_le_dec (cur + max_chars) (len text)) as [Hlt|Hge].
    + destruct (chunk_loop_step 0 [] cur) as (e & _ & He & Hadv & Hrange);
        [lia | lia |].
      destruct (IH e) as (ps & Hrun & Hch & Hall); [lia | lia |].
      exists (Piece cur e (strip (slice text cur e)) :: ps).
      split; [|split].
      * intros [|fuel] chunks Hf; [lia|].
        destruct (chunk_loop_step fuel chunks cur) as (e' & Hstep & He' & _);
          [lia | lia |].
        rewrite Hstep. subst e'. rewrite <- He.
        rewrite Hrun by lia. rewrite <- app_assoc. reflexivity.
      * simpl. split; [reflexivity|]. split; [lia | exact Hch].
      * constructor; [|exact Hall]. simpl. split; [lia | reflexivity].
    + exists [Piece cur (len text) (strip (slice text cur (len text)))].
      split; [|split].
      * intros [|fuel] chunks Hf; [lia|].
        apply chunk_loop_last; lia.
      * simpl. lia.
      * constructor; [|constructor]. simpl. split; [lia | reflexivity].
Qed.

(** [chunk_pieces] returns, whatever the fuel from [enough text] on. *)
Lemma chunk_pieces_fuel :
  exists ps,
    (forall fuel, (enough text <= fuel)%nat ->
       chunk_pieces fuel text max_chars = Some ps) /\
    chained 0 ps (len text) /\
    (len text <= max_chars -> ps = [Piece 0 (len text) text]) /\
    (max_chars < len text ->
       Forall (fun p => lo p < hi p /\ body p = strip (raw text p)) ps).
Proof.
  pose proof (len_nonneg text) as Hlen. unfold chunk_pieces.
  destruct (Z.leb_spec (len text) max_chars) as [Hle|Hgt].
  - exists [Piece 0 (len text) text]. split; [reflexivity|].
    split; [simpl; lia|]. split; [reflexivity | lia].
  - destruct (chunk_loop_run (length text) 0) as (ps & Hrun & Hch & Hall);
      [lia | unfold len; lia |].
    exists ps. split; [|split; [exact Hch | split; [lia | auto]]].
    intros fuel Hf. unfold enough in Hf. rewrite Hrun by lia. reflexivity.
Qed.
End chunk_loop_facts.

(** ** File names *)

Section file_names.
Implicit Types (s t : string) (n : nat).

Lemma string_length_app s t :
  String.length (s +:+ t) = (String.length s + String.length t)%nat.
Proof. induction s as [|c s IH]; simpl; [reflexivity | rewrite IH; reflexivity]. Qed.

Lemma string_app_inv_tail s1 s2 t : s1 +:+ t = s2 +:+ t -> s1 = s2.
Proof.
  revert s2. induction s1 as [|c s1 IH]; intros [|d s2] Heq; simpl in Heq.
  - reflexivity.
  - apply (f_equal String.length) in Heq.
    rewrite !string_length_app in Heq. simpl in Heq. lia.
  - apply (f_equal String.length) in Heq.
    rewrite !string_length_app in Heq. simpl in Heq. lia.
  - injection Heq as -> Heq. f_equal. apply IH. exact Heq.
Qed.

Lemma parse_nat_zero s : parse_nat (String "0" s) = parse_nat s.
Proof.
  unfold parse_nat. simpl.
  destruct (DecimalString.NilEmpty.uint_of_string s); reflexivity.
Qed.

Lemma parse_nat_zfill width s : parse_nat (zfill width s) = parse_nat s.
Proof.
  unfold zfill. induction (width - String.length s)%nat as [|k IH]; simpl.
  - reflexivity.
  - rewrite parse_nat_zero. exact IH.
Qed.

Lemma parse_nat_fmt03d n : parse_nat (fmt03d n) = Some n.
Proof.
  unfold fmt03d. rewrite parse_nat_zfill. unfold parse_nat.
  rewrite DecimalString.NilEmpty.usu. simpl.
  rewrite DecimalNat.Unsigned.of_to. reflexivity.
Qed.

Lemma string_app_assoc s t u : (s +:+ t) +:+ u = s +:+ t +:+ u.
Proof.
  induction s as [|c s IH]; [reflexivity|].
  change (String c ((s +:+ t) +:+ u) = String c (s +:+ t +:+ u)).
  f_equal. exact IH.
Qed.

Lemma fmt03d_inj n1 n2 : fmt03d n1 = fmt03d n2 -> n1 = n2.
Proof.
  intros Heq. apply (f_equal parse_nat) in Heq.
  rewrite !parse_nat_fmt03d in Heq. congruence.
Qed.
End file_names.

(** ** Running the commands of the processor *)

Section processor_facts.
Context `{Collaborators}.
Variable base_dir : path.

Implicit Types (w : world) (p out : path) (i k : nat).

Lemma chunk_output_inj script_name i k :
  chunk_output base_dir script_name i = chunk_output base_dir script_name k ->
  i = k.
Proof.
  unfold chunk_output, joinpath. intros Heq.
  do 4 apply String.app_inj in Heq.
  apply string_app_inv_tail, fmt03d_inj in Heq. lia.
Qed.

(** *** [generate_audio_chunk] *)

Lemma ensure_loaded w model :
  f5tts_model w = Some model -> ensure_f5tts_model w = Some (Return (), w).
Proof.
  intros Hm. unfold ensure_f5tts_model, mbind, M_bind, get. rewrite Hm.
  reflexivity.
Qed.

(** After the model has been obtained, the call is decided by [infer] and
    then by the write of the file. *)
Lemma generate_audio_chunk_run text ra rt out w w1 model :
  ensure_f5tts_model w = Some (Return (), w1) ->
  f5tts_model w1 = Some model ->
  generate_audio_chunk text ra rt out w =
  match infer model ra rt text (synthesis w1) with
  | (b, inr audio_data) =>
      match write_outcome out audio_data 24000 (disk w1) with
      | (d, None) =>
          Some (Return true,
                set_sounds
                  (<[out := Wav (Sound (stored audio_data) 24000)]> (sounds w1))
                  (set_disk d (set_synthesis b w1)))
      | (d, Some (e, remains)) =>
          Some (Return false,
                set_sounds (leftover out remains (sounds w1))
                  (set_disk d (set_synthesis b w1)))
      end
  | (b, inl e) => Some (Return false, set_synthesis b w1)
  end.
Proof.
  intros Hens Hm. unfold generate_audio_chunk.
  unfold mbind at 1. unfold M_bind. rewrite Hens.
  unfold try_except, call_infer, mbind, M_bind. rewrite Hm.
  destruct (infer model ra rt text (synthesis w1)) as [b [e|a]];
    [reflexivity|].
  unfold sf_write. cbn [disk set_synthesis].
  destruct (write_outcome out a 24000 (disk w1)) as [d [[e remains]|]];
    reflexivity.
Qed.

(** A model that fails to load is not a failed chunk: the exception of
    [load_f5tts_model] leaves [generate_audio_chunk]. *)
Lemma generate_audio_chunk_load_failure text ra rt out w b e :
  f5tts_model w = None -> F5TTS_new (synthesis w) = (b, inl e) ->
  generate_audio_chunk text ra rt out w = Some (Raise e, set_synthesis b w).
Proof.
  intros Hm Hload.
  unfold generate_audio_chunk, ensure_f5tts_model, mbind, M_bind, get,
    load_f5tts_model.
  rewrite Hm, Hload. reflexivity.
Qed.

Lemma ensure_keeps_files w w1 r :
  ensure_f5tts_model w = Some (r, w1) ->
  sounds w1 = sounds w /\ scripts w1 = scripts w /\
  console w1 = console w /\ drive_manager w1 = drive_manager w /\
  store w1 = store w.
Proof.
  unfold ensure_f5tts_model, mbind, M_bind, get, load_f5tts_model. simpl.
  destruct (f5tts_model w).
  - intros [= <- <-]. auto.
  - destruct (F5TTS_new (synthesis w)) as [b [e|m]]; intros [= <- <-]; auto.
Qed.

Lemma ensure_keeps_disk w w1 r :
  ensure_f5tts_model w = Some (r, w1) -> disk w1 = disk w.
Proof.
  unfold ensure_f5tts_model, mbind, M_bind, get, load_f5tts_model. simpl.
  destruct (f5tts_model w).
  - intros [= <- <-]. auto.
  - destruct (F5TTS_new (synthesis w)) as [b [e|m]]; intros [= <- <-]; auto.
Qed.

(** *** Files after a write that failed *)

Lemma leftover_ne p q remains (files : gmap path (file sample)) :
  p <> q -> leftover q remains files !! p = files !! p.
Proof.
  intros Hne. destruct remains as [f|]; simpl; [|reflexivity].
  apply lookup_insert_ne. congruence.
Qed.

Lemma leftover_is_Some p q remains (files : gmap path (file sample)) :
  is_Some (files !! p) -> is_Some (leftover q remains files !! p).
Proof.
  intros Hp. destruct remains as [f|]; simpl; [|exact Hp].
  destruct (decide (q = p)) as [->|Hne].
  - rewrite lookup_insert_eq. eauto.
  - rewrite lookup_insert_ne by exact Hne. exact Hp.
Qed.

(** *** [np.concatenate] *)

Lemma concatenate_frames (arrays : list (ndarray sample)) merged :
  concatenate arrays = Some merged ->
  arrays <> [] /\ frames merged = concat (frames <$> arrays) /\
  Forall (fun a => shape a = shape merged) arrays.
Proof.
  destruct arrays as [|a rest]; [discriminate|]. unfold concatenate.
  destruct (forallb _ rest) eqn:Hall; [|discriminate].
  intros [= <-]. split; [discriminate|]. split; [reflexivity|].
  constructor; [reflexivity|]. apply Forall_forall. intros b Hb.
  rewrite forallb_forall in Hall. cbn [shape].
  eapply bool_decide_eq_true_1, Hall, list_elem_of_In, Hb.
Qed.

Lemma concatenate_same_shape (arrays : list (ndarray sample)) a sh :
  a ∈ arrays -> Forall (fun b => shape b = sh) arrays ->
  concatenate arrays = Some (NDArray (concat (frames <$> arrays)) sh).
Proof.
  intros Hin Hall. destruct arrays as [|a0 rest].
  - apply elem_of_nil in Hin as [].
  - unfold concatenate. apply Forall_cons in Hall as [H0 Hrest].
    replace (forallb _ rest) with true; [rewrite H0; reflexivity|].
    symmetry. apply forallb_forall. intros b Hb.
    apply bool_decide_eq_true_2. rewrite H0.
    rewrite Forall_forall in Hrest. apply Hrest, list_elem_of_In, Hb.
Qed.

(** *** [merge_audio_files] *)

Lemma read_segments_all audio_files ss audio_segments sr w :
  Forall2 (fun f s => sounds w !! f = Some (Wav s)) audio_files ss ->
  read_segments audio_files audio_segments sr w =
  Some (Return (audio_segments ++ (audio <$> ss),
                match last ss with
                | Some s => Some (samplerate s)
                | None => sr
                end), w).
Proof.
  intros Hall. revert audio_segments sr.
  induction Hall as [|f s fs ss Hf _ IH]; intros audio_segments sr; simpl.
  - rewrite app_nil_r. reflexivity.
  - unfold mbind, M_bind, sf_read. rewrite Hf. rewrite IH.
    rewrite <- app_assoc, (last_cons s ss). simpl.
    destruct (last ss); reflexivity.
Qed.

Lemma read_segments_missing audio_files audio_segments sr w f :
  f ∈ audio_files -> ~ readable w f ->
  exists e, read_segments audio_files audio_segments sr w = Some (Raise e, w).
Proof.
  intros Hin Hf. revert audio_segments sr.
  induction audio_files as [|g fs IH]; intros audio_segments sr.
  - apply elem_of_nil in Hin as [].
  - simpl. unfold mbind, M_bind.
    destruct (sounds w !! g) as [[s|]|] eqn:Hg.
    + unfold sf_read. rewrite Hg.
      apply elem_of_cons in Hin as [->|Hin].
      * exfalso. apply Hf. exists s. exact Hg.
      * apply IH. exact Hin.
    + unfold sf_read. rewrite Hg. eauto.
    + unfold sf_read. rewrite Hg. eauto.
Qed.

Lemma merge_audio_files_missing audio_files out w f :
  f ∈ audio_files -> ~ readable w f ->
  merge_audio_files audio_files out w = Some (Return false, w).
Proof.
  intros Hin Hf.
  destruct (read_segments_missing audio_files [] None w f Hin Hf) as [e He].
  unfold merge_audio_files, try_except, mbind, M_bind. rewrite He.
  reflexivity.
Qed.

Lemma readable_all_or_not audio_files w :
  Forall (readable w) audio_files \/
  exists f, f ∈ audio_files /\ ~ readable w f.
Proof.
  induction audio_files as [|g fs [IH|(f & Hin & Hf)]].
  - left. constructor.
  - destruct (sounds w !! g) as [[s|]|] eqn:Hg.
    + left. constructor; [exists s; exact Hg | exact IH].
    + right. exists g. split; [apply elem_of_cons; auto|].
      intros [s Hs]. congruence.
    + right. exists g. split; [apply elem_of_cons; auto|].
      intros [s Hs]. congruence.
  - right. exists f. split; [apply elem_of_cons; auto | exact Hf].
Qed.

(** When every input is read, the call is decided by [np.concatenate] and
    then by the write of the output. *)
Lemma merge_audio_files_run audio_files ss out w :
  Forall2 (fun f s => sounds w !! f = Some (Wav s)) audio_files ss ->
  merge_audio_files audio_files out w =
  match concatenate (audio <$> ss), last ss with
  | Some merged_audio, Some s0 =>
      match write_outcome out merged_audio (samplerate s0) (disk w) with
      | (d, None) =>
          Some (Return true,
                set_sounds
                  (<[out := Wav (Sound (stored merged_audio) (samplerate s0))]>
                     (sounds w))
                  (set_disk d w))
      | (d, Some (e, remains)) =>
          Some (Return false,
                set_sounds (leftover out remains (sounds w)) (set_disk d w))
      end
  | _, _ => Some (Return false, w)
  end.
Proof.
  intros Hall.
  unfold merge_audio_files, try_except, mbind, M_bind.
  rewrite (read_segments_all _ _ _ _ _ Hall). cbn [app].
  unfold np_concatenate.
  destruct (concatenate (audio <$> ss)) as [merged|] eqn:Hcat; [|reflexivity].
  unfold mret, M_ret.
  destruct (last ss) as [s0|] eqn:Hlast; [|reflexivity].
  unfold sf_write.
  destruct (write_outcome out merged (samplerate s0) (disk w))
    as [d [[e remains]|]]; reflexivity.
Qed.

(** *** The chunk loop of [process_script] *)

Lemma upload_if_enabled_run upload_to_drive p drive_folder_id w :
  exists w',
    upload_if_enabled upload_to_drive p drive_folder_id w = Some (Return (), w') /\
    sounds w' = sounds w /\ scripts w' = scripts w /\
    f5tts_model w' = f5tts_model w /\ synthesis w' = synthesis w /\
    console w' = console w /\ disk w' = disk w.
Proof.
  unfold upload_if_enabled, mbind, M_bind, get.
  destruct (drive_manager w), upload_to_drive; simpl; eauto 10.
Qed.

Lemma generated_index script_name model ra rt b d chunks i k a :
  (k, a) ∈ generated base_dir script_name model ra rt b d chunks i ->
  (i <= k)%nat.
Proof.
  revert b d i. induction chunks as [|c chunks IH]; intros b d i; simpl.
  - intros Hin. apply elem_of_nil in Hin as [].
  - destruct (infer model ra rt c b) as [b' [e|a0]].
    + intros Hin. apply IH in Hin. lia.
    + destruct (write_outcome _ a0 24000 d) as [d' [o|]].
      * intros Hin. apply IH in Hin. lia.
      * intros Hin. apply elem_of_cons in Hin as [[= -> ->]|Hin]; [lia|].
        apply IH in Hin. lia.
Qed.

Lemma generated_increasing script_name model ra rt b d chunks i :
  StronglySorted lt
    (generated base_dir script_name model ra rt b d chunks i).*1.
Proof.
  revert b d i. induction chunks as [|c chunks IH]; intros b d i; simpl.
  - constructor.
  - destruct (infer model ra rt c b) as [b' [e|a0]]; [apply IH|].
    destruct (write_outcome _ a0 24000 d) as [d' [o|]]; [apply IH|].
    rewrite fmap_cons. constructor; [apply IH|].
    apply Forall_forall. intros k Hk.
    apply list_elem_of_fmap in Hk as ([k' a] & -> & Hin).
    apply generated_index in Hin. simpl. lia.
Qed.

(** The chunks that become files are among those that are synthesized. *)
Lemma generated_synthesized script_name model ra rt b d chunks i :
  generated base_dir script_name model ra rt b d chunks i ⊆
  synthesized model ra rt b chunks i.
Proof.
  revert b d i. induction chunks as [|c chunks IH]; intros b d i; simpl.
  - reflexivity.
  - destruct (infer model ra rt c b) as [b' [e|a0]]; [apply IH|].
    destruct (write_outcome _ a0 24000 d) as [d' [o|]].
    + intros x Hx. apply elem_of_cons. right. eapply IH, Hx.
    + intros x Hx. apply elem_of_cons in Hx as [->|Hx];
        apply elem_of_cons; [left; reflexivity | right; eapply IH, Hx].
Qed.

Lemma generate_chunks_run script_name ra rt upload_to_drive drive_folder_id
    chunks i generated_files w model :
  f5tts_model w = Some model ->
  exists w',
    generate_chunks base_dir script_name ra rt upload_to_drive drive_folder_id
      chunks i generated_files w =
    Some (Return
            (generated_files ++
             (chunk_output base_dir script_name <$>
              (generated base_dir script_name model ra rt (synthesis w)
                 (disk w) chunks i).*1)), w') /\
    scripts w' = scripts w /\ console w' = console w /\
    (forall k a,
       (k, a) ∈ generated base_dir script_name model ra rt (synthesis w)
                  (disk w) chunks i ->
       sounds w' !! chunk_output base_dir script_name k =
       Some (Wav (Sound (stored a) 24000))) /\
    (forall p, (forall k, (i <= k)%nat -> p <> chunk_output base_dir script_name k) ->
       sounds w' !! p = sounds w !! p).
Proof.
  revert i generated_files w.
  induction chunks as [|c chunks IH]; intros i generated_files w Hm.
  - exists w. simpl. rewrite app_nil_r. split; [reflexivity|].
    split; [reflexivity|]. split; [reflexivity|]. split; [|reflexivity].
    intros k a Hin. apply elem_of_nil in Hin as [].
  - cbn [generate_chunks generated]. unfold mbind at 1. unfold M_bind at 1.
    rewrite (generate_audio_chunk_run _ _ _ _ _ w model (ensure_loaded _ _ Hm) Hm).
    set (out := chunk_output base_dir script_name i).
    destruct (infer model ra rt c (synthesis w)) as [b [e|a0]].
    + destruct (IH (S i) generated_files (set_synthesis b w) Hm)
        as (w' & Hrun & Hscr & Hcon & Hgood & Hrest).
      exists w'. unfold mbind, M_bind, mret, M_ret. simpl in Hrun |- *.
      rewrite Hrun. split; [reflexivity|].
      split; [exact Hscr|]. split; [exact Hcon|]. split; [exact Hgood|].
      intros p Hp. apply Hrest. intros k Hk. apply Hp. lia.
    + destruct (write_outcome out a0 24000 (disk w)) as [d [[e remains]|]].
      * set (w1 := set_sounds (leftover out remains (sounds w))
                     (set_disk d (set_synthesis b w))).
        destruct (IH (S i) generated_files w1 Hm)
          as (w' & Hrun & Hscr & Hcon & Hgood & Hrest).
        exists w'. unfold mbind, M_bind, mret, M_ret. simpl in Hrun |- *.
        rewrite Hrun. split; [reflexivity|].
        split; [exact Hscr|]. split; [exact Hcon|]. split; [exact Hgood|].
        intros p Hp. rewrite Hrest by (intros k Hk; apply Hp; lia).
        simpl. apply leftover_ne. apply Hp. lia.
      * set (w1 := set_sounds
                     (<[out := Wav (Sound (stored a0) 24000)]> (sounds w))
                     (set_disk d (set_synthesis b w))).
        destruct (upload_if_enabled_run upload_to_drive out drive_folder_id w1)
          as (w2 & Hup & Hs2 & Hscr2 & Hm2 & Hb2 & Hcon2 & Hd2).
        destruct (IH (S i) (generated_files ++ [out]) w2)
          as (w' & Hrun & Hscr & Hcon & Hgood & Hrest).
        { rewrite Hm2. exact Hm. }
        exists w'. unfold mbind, M_bind, mret, M_ret. rewrite Hup.
        rewrite Hb2, Hd2 in Hrun, Hgood. simpl in Hrun, Hgood |- *.
        rewrite Hrun, <- app_assoc. split; [reflexivity|].
        split; [rewrite Hscr, Hscr2; reflexivity|].
        split; [rewrite Hcon, Hcon2; reflexivity|]. split.
        -- intros k a Hin. apply elem_of_cons in Hin as [[= -> ->]|Hin].
           ++ rewrite Hrest, Hs2.
              ** apply lookup_insert_eq.
              ** intros k Hk Heq. apply chunk_output_inj in Heq. lia.
           ++ apply Hgood. exact Hin.
        -- intros p Hp. rewrite Hrest by (intros k Hk; apply Hp; lia).
           rewrite Hs2. apply lookup_insert_ne. intros Heq.
           apply (Hp i); [lia | symmetry; exact Heq].
Qed.

Lemma final_output_fresh script_name name i :
  final_output base_dir script_name <> chunk_output base_dir name i.
Proof.
  unfold final_output, chunk_output, output_dir, temp_dir, joinpath.
  rewrite !string_app_assoc. intros Heq.
  apply String.app_inj in Heq. cbn in Heq. discriminate.
Qed.

(** *** [process_script] *)

Lemma chunk_text_500 t :
  exists chunks, chunk_text t 500 = Some chunks /\ chunks <> [].
Proof.
  destruct (chunk_pieces_fuel t 500) as (ps & Hrun & Hch & Hshort & _); [lia|].
  exists (body <$> ps). unfold chunk_text, chunk_text_fuel.
  rewrite Hrun by lia. split; [reflexivity|].
  destruct ps as [|q ps]; [|discriminate]. simpl in Hch.
  specialize (Hshort ltac:(lia)). discriminate.
Qed.

(** A readable script is trimmed, cut with [max_chars=500], synthesized
    chunk by chunk and merged. *)
Lemma process_script_run script_path ra rt upload_to_drive drive_folder_id w t :
  scripts w !! script_path = Some t ->
  exists chunks,
    chunk_text (strip t) 500 = Some chunks /\ chunks <> [] /\
    process_script base_dir script_path ra rt upload_to_drive drive_folder_id w =
    (generated_files ←
       generate_chunks base_dir (stem script_path) ra rt upload_to_drive
         drive_folder_id chunks 0 [];
     merge_chunks base_dir (stem script_path) upload_to_drive drive_folder_id
       generated_files) w.
Proof.
  intros Ht. destruct (chunk_text_500 (strip t)) as (chunks & Hc & Hne).
  exists chunks. split; [exact Hc|]. split; [exact Hne|].
  unfold process_script. unfold mbind at 1. unfold M_bind at 1.
  unfold read_text. rewrite Ht. unfold mbind at 1. unfold M_bind at 1.
  unfold terminated. rewrite Hc. reflexivity.
Qed.

Lemma process_script_unreadable script_path ra rt upload_to_drive
    drive_folder_id w :
  scripts w !! script_path = None ->
  process_script base_dir script_path ra rt upload_to_drive drive_folder_id w =
  Some (Raise (FileNotFoundError script_path), w).
Proof.
  intros Ht. unfold process_script, mbind, M_bind, read_text. rewrite Ht.
  reflexivity.
Qed.

Lemma written_chunks_readable script_name (good : list (nat * ndarray sample)) w :
  (forall k a, (k, a) ∈ good ->
     sounds w !! chunk_output base_dir script_name k =
     Some (Wav (Sound (stored a) 24000))) ->
  Forall2 (fun f s => sounds w !! f = Some (Wav s))
    (chunk_output base_dir script_name <$> good.*1)
    ((fun a => Sound (stored a) 24000) <$> good.*2).
Proof.
  induction good as [|[k a] good IH]; intros Hall; simpl; constructor.
  - apply Hall. apply elem_of_cons. left. reflexivity.
  - apply IH. intros k' a' Hin. apply Hall. apply elem_of_cons. right.
    exact Hin.
Qed.

Lemma merge_chunks_nonempty script_name upload_to_drive drive_folder_id
    generated_files w :
  generated_files <> [] ->
  merge_chunks base_dir script_name upload_to_drive drive_folder_id
    generated_files w =
  (ok ← merge_audio_files generated_files (final_output base_dir script_name);
   if ok : bool
   then upload_if_enabled upload_to_drive (final_output base_dir script_name)
          drive_folder_id;;
        mret (generated_files ++ [final_output base_dir script_name])
   else mret generated_files) w.
Proof. destruct generated_files; [congruence | reflexivity]. Qed.

(** The merge of chunk files that were written: it is decided by the
    shapes of what the files hold and by the write of the merged file. *)
Lemma merge_chunks_run script_name upload_to_drive drive_folder_id
    (good : list (nat * ndarray sample)) w :
  good <> [] ->
  (forall k a, (k, a) ∈ good ->
     sounds w !! chunk_output base_dir script_name k =
     Some (Wav (Sound (stored a) 24000))) ->
  exists w',
    scripts w' = scripts w /\ console w' = console w /\
    match concatenate (stored <$> good.*2) with
    | Some merged_audio =>
        match write_outcome (final_output base_dir script_name) merged_audio
                24000 (disk w) with
        | (_, None) =>
            merge_chunks base_dir script_name upload_to_drive drive_folder_id
              (chunk_output base_dir script_name <$> good.*1) w =
            Some (Return ((chunk_output base_dir script_name <$> good.*1) ++
                          [final_output base_dir script_name]), w') /\
            sounds w' =
            <[final_output base_dir script_name :=
                Wav (Sound (stored merged_audio) 24000)]> (sounds w)
        | (_, Some (e, remains)) =>
            merge_chunks base_dir script_name upload_to_drive drive_folder_id
              (chunk_output base_dir script_name <$> good.*1) w =
            Some (Return (chunk_output base_dir script_name <$> good.*1), w') /\
            sounds w' =
            leftover (final_output base_dir script_name) remains (sounds w)
        end
    | None =>
        merge_chunks base_dir script_name upload_to_drive drive_folder_id
          (chunk_output base_dir script_name <$> good.*1) w =
        Some (Return (chunk_output base_dir script_name <$> good.*1), w') /\
        w' = w
    end.
Proof.
  intros Hne Hall. pose proof (written_chunks_readable _ _ _ Hall) as Hread.
  assert (Hlast : exists a, last ((fun a => Sound (stored a) 24000) <$> good.*2)
                            = Some (Sound (sample := sample) a 24000)).
  { destruct (last good.*2) as [a|] eqn:Hl.
    - exists (stored a). rewrite fmap_last, Hl. reflexivity.
    - apply last_None in Hl. destruct good; [congruence | discriminate]. }
  destruct Hlast as [a0 Hlast].
  assert (Hfiles : chunk_output base_dir script_name <$> good.*1 <> []).
  { destruct good; [congruence | discriminate]. }
  rewrite (merge_chunks_nonempty _ _ _ _ _ Hfiles).
  unfold mbind at 1 3 5. unfold M_bind at 1 3 5.
  rewrite (merge_audio_files_run _ _ _ _ Hread), Hlast.
  assert (Hdata : forall l : list (ndarray sample),
             audio <$> ((fun a => Sound (stored a) 24000) <$> l) = stored <$> l).
  { induction l as [|a l IHl]; [reflexivity|]. rewrite !fmap_cons, IHl.
    reflexivity. }
  rewrite Hdata. cbn [samplerate].
  destruct (concatenate (stored <$> good.*2)) as [merged|];
    [|exists w; auto].
  set (out := final_output base_dir script_name).
  destruct (write_outcome out merged 24000 (disk w)) as [d [[e remains]|]].
  - eexists. split; [|split; [|split; reflexivity]]; reflexivity.
  - destruct (upload_if_enabled_run upload_to_drive out drive_folder_id
                (set_sounds (<[out := Wav (Sound (stored merged) 24000)]>
                               (sounds w)) (set_disk d w)))
      as (w2 & Hup & Hs2 & Hscr2 & _ & _ & Hcon2 & _).
    exists w2. unfold mbind, M_bind, mret, M_ret. rewrite Hup.
    split; [exact Hscr2|]. split; [exact Hcon2|]. split; [reflexivity|].
    exact Hs2.
Qed.

Lemma generate_chunks_ensure script_name ra rt upload_to_drive drive_folder_id
    chunks i generated_files w w1 model :
  ensure_f5tts_model w = Some (Return (), w1) ->
  f5tts_model w1 = Some model -> chunks <> [] ->
  generate_chunks base_dir script_name ra rt upload_to_drive drive_folder_id
    chunks i generated_files w =
  generate_chunks base_dir script_name ra rt upload_to_drive drive_folder_id
    chunks i generated_files w1.
Proof.
  intros Hens Hm Hne. destruct chunks as [|c chunks]; [congruence|].
  cbn [generate_chunks]. unfold mbind, M_bind.
  rewrite (generate_audio_chunk_run _ _ _ _ _ _ _ Hens Hm).
  rewrite (generate_audio_chunk_run _ _ _ _ _ _ _ (ensure_loaded _ _ Hm) Hm).
  reflexivity.
Qed.

Lemma bind_ext {A B} (m : M A) (f g : A -> M B) w :
  (forall a w', f a w' = g a w') -> (m ≫= f) w = (m ≫= g) w.
Proof.
  intros Hfg. unfold mbind, M_bind. destruct (m w) as [[[a|e] w']|]; auto.
Qed.

(** *** Every command of the processor ends *)

Lemma total_ret {A} (a : A) : total (mret a).
Proof. intros w. eexists _, _. reflexivity. Qed.

Lemma total_throw {A} (e : exn) : total (mthrow e : M A).
Proof. intros w. eexists _, _. reflexivity. Qed.

Lemma total_bind {A B} (m : M A) (f : A -> M B) :
  total m -> (forall a, total (f a)) -> total (m ≫= f).
Proof.
  intros Hm Hf w. unfold mbind, M_bind.
  destruct (Hm w) as ([a|e] & w' & ->); [apply Hf | eauto].
Qed.

Lemma total_try {A} (body : M A) (handler : exn -> M A) :
  total body -> (forall e, total (handler e)) -> total (try_except body handler).
Proof.
  intros Hb Hh w. unfold try_except.
  destruct (Hb w) as ([a|e] & w' & ->); [eauto | apply Hh].
Qed.

Lemma total_get {A} (field : world -> A) : total (get field).
Proof. intros w. eexists _, _. reflexivity. Qed.

Lemma total_sf_read p : total (sf_read p).
Proof.
  intros w. unfold sf_read. destruct (sounds w !! p) as [[s|]|]; eauto.
Qed.

Lemma total_sf_write p data rate : total (sf_write p data rate).
Proof.
  intros w. unfold sf_write.
  destruct (write_outcome p data rate (disk w)) as [d [[e remains]|]]; eauto.
Qed.

Lemma total_read_text p : total (read_text p).
Proof. intros w. unfold read_text. destruct (scripts w !! p); eauto. Qed.

Lemma total_load : total load_f5tts_model.
Proof.
  intros w. unfold load_f5tts_model.
  destruct (F5TTS_new (synthesis w)) as [b [e|m]]; eauto.
Qed.

Lemma total_call_infer ra rt text : total (call_infer ra rt text).
Proof.
  intros w. unfold call_infer. destruct (f5tts_model w) as [m|]; [|eauto].
  destruct (infer m ra rt text (synthesis w)) as [b [e|a]]; eauto.
Qed.

Lemma total_generate_audio_chunk text ra rt out :
  total (generate_audio_chunk text ra rt out).
Proof.
  unfold generate_audio_chunk, ensure_f5tts_model.
  apply total_bind.
  - apply total_bind; [apply total_get|]. intros [m|];
      [apply total_ret | apply total_load].
  - intros _. apply total_try; [|intros e; apply total_ret].
    apply total_bind; [apply total_call_infer|]. intros a.
    apply total_bind; [apply total_sf_write | intros _; apply total_ret].
Qed.

Lemma total_read_segments audio_files audio_segments sr :
  total (read_segments audio_files audio_segments sr).
Proof.
  revert audio_segments sr.
  induction audio_files as [|f fs IH]; intros audio_segments sr; simpl.
  - apply total_ret.
  - apply total_bind; [apply total_sf_read|]. intros [a r]. apply IH.
Qed.

Lemma total_merge_audio_files audio_files out :
  total (merge_audio_files audio_files out).
Proof.
  unfold merge_audio_files.
  apply total_try; [|intros e; apply total_ret].
  apply total_bind; [apply total_read_segments|]. intros [segs sr].
  apply total_bind.
  { unfold np_concatenate.
    destruct (concatenate segs); [apply total_ret | apply total_throw]. }
  intros merged. apply total_bind.
  { destruct sr; [apply total_ret | apply total_throw]. }
  intros rate. apply total_bind; [apply total_sf_write | intros _; apply total_ret].
Qed.

Lemma total_upload upload_to_drive p drive_folder_id :
  total (upload_if_enabled upload_to_drive p drive_folder_id).
Proof.
  intros w.
  destruct (upload_if_enabled_run upload_to_drive p drive_folder_id w)
    as (w' & Hrun & _). eauto.
Qed.

Lemma total_generate_chunks script_name ra rt upload_to_drive drive_folder_id
    chunks i generated_files :
  total (generate_chunks base_dir script_name ra rt upload_to_drive
           drive_folder_id chunks i generated_files).
Proof.
  revert i generated_files.
  induction chunks as [|c chunks IH]; intros i generated_files; simpl.
  - apply total_ret.
  - apply total_bind; [apply total_generate_audio_chunk|]. intros ok.
    apply total_bind; [|intros files; apply IH].
    destruct ok; [|apply total_ret].
    apply total_bind; [apply total_upload | intros _; apply total_ret].
Qed.

Lemma total_merge_chunks script_name upload_to_drive drive_folder_id files :
  total (merge_chunks base_dir script_name upload_to_drive drive_folder_id files).
Proof.
  unfold merge_chunks. destruct files as [|f files]; [apply total_ret|].
  apply total_bind; [apply total_merge_audio_files|]. intros ok.
  destruct ok; [|apply total_ret].
  apply total_bind; [apply total_upload | intros _; apply total_ret].
Qed.

Lemma total_process_script script_path ra rt upload_to_drive drive_folder_id :
  total (process_script base_dir script_path ra rt upload_to_drive
           drive_folder_id).
Proof.
  unfold process_script.
  apply total_bind; [apply total_read_text|]. intros t.
  apply total_bind.
  { intros w. unfold terminated.
    destruct (chunk_text_500 (strip t)) as (chunks & -> & _). eauto. }
  intros chunks. apply total_bind; [apply total_generate_chunks|].
  intros files. apply total_merge_chunks.
Qed.

Lemma process_each_script_returns config ra rt script_files i all w :
  exists files w',
    process_each_script base_dir config ra rt script_files i all w =
    Some (Return files, w').
Proof.
  revert i all w. induction script_files as [|s rest IH]; intros i all w.
  - eexists _, _. reflexivity.
  - cbn [process_each_script]. unfold mbind at 1. unfold M_bind at 1.
    unfold try_except.
    unfold mbind at 1. unfold M_bind at 1.
    destruct (total_process_script s ra rt
                (truthy (config_get config "auto_upload" (JBool true)))
                (config !! "output_folder_id") w) as ([fs|e] & w1 & ->);
      apply IH.
Qed.
End processor_facts.

(** ** Properties of the segmenter *)

Lemma absent_not_occurs chunk (ds : list str) :
  Forall (absent chunk) ds -> Exists (occurs_in chunk) ds -> False.
Proof.
  intros Hno Hex. apply Exists_exists in Hex as (d & Hin & i & Hocc).
  rewrite Forall_forall in Hno. exact (Hno d Hin i Hocc).
Qed.

(** C1. For every text and every [max_chars >= 1], [chunk_text] returns, and
    the slices of the text between its successive boundaries are contiguous
    from 0 to the end of the text, so that their concatenation is the text
    itself; each chunk is its slice with white space removed at the two
    ends and nothing else. *)
Theorem chunk_text_covers text max_chars :
  1 <= max_chars ->
  exists ps,
    chunk_pieces (enough text) text max_chars = Some ps /\
    chunk_text text max_chars = Some (body <$> ps) /\
    chained 0 ps (len text) /\
    concat (raw text <$> ps) = text /\
    Forall (fun p => exists l r,
                raw text p = l ++ body p ++ r /\ blank l /\ blank r) ps.
Proof.
  intros Hmax.
  destruct (chunk_pieces_fuel text max_chars Hmax)
    as (ps & Hrun & Hch & Hshort & Hlong).
  pose proof (len_nonneg text) as Hlen.
  exists ps. split; [apply Hrun; lia|].
  split; [unfold chunk_text, chunk_text_fuel; rewrite Hrun by lia; reflexivity|].
  split; [exact Hch|]. split.
  - rewrite (chained_concat text 0 ps (len text)) by (assumption || lia).
    apply slice_full.
  - destruct (Z_le_gt_dec (len text) max_chars) as [Hle|Hgt].
    + rewrite (Hshort Hle). constructor; [|constructor].
      exists [], []. unfold raw. simpl. rewrite slice_full, app_nil_r.
      split; [reflexivity|]. split; constructor.
    + specialize (Hlong ltac:(lia)). eapply Forall_impl; [exact Hlong|].
      intros p [_ Hbody]. rewrite Hbody. apply strip_split.
Qed.

Lemma chunk_text_covers_hello :
  exists ps,
    chunk_pieces (enough hello) hello 20 = Some ps /\
    chunk_text hello 20 = Some (body <$> ps) /\
    chained 0 ps (len hello) /\
    concat (raw hello <$> ps) = hello /\
    Forall (fun p => exists l r,
                raw hello p = l ++ body p ++ r /\ blank l /\ blank r) ps.
Proof. apply (chunk_text_covers hello 20). lia. Defined.

(** The boundary example of the specification: the first boundary of
    [hello] with [max_chars = 20] is right after ["Hello world. "]. *)
Example first_boundary_hello :
  find_sentence_end (slice hello 0 20) delimiters 0 20 = 13 /\
  slice hello 0 13 = of_string "Hello world. ".
Proof. split; vm_compute; reflexivity. Qed.

(** C6, as the code has it. A text no longer than [max_chars] comes back as
    the single chunk [text], as it is: the chunk is the trimmed text exactly
    when the text has no white space at either end. *)
Theorem chunk_text_short text max_chars :
  len text <= max_chars ->
  chunk_text text max_chars = Some [text] /\
  (chunk_text text max_chars = Some [strip text] <-> strip text = text).
Proof.
  intros Hle.
  assert (Hrun : chunk_text text max_chars = Some [text]).
  { unfold chunk_text, chunk_text_fuel, chunk_pieces.
    destruct (Z.leb_spec (len text) max_chars); [reflexivity | lia]. }
  split; [exact Hrun|]. rewrite Hrun. split.
  - intros [= Heq]. symmetry. exact Heq.
  - intros ->. reflexivity.
Qed.

Lemma chunk_text_short_hello :
  chunk_text hello 64 = Some [hello] /\
  (chunk_text hello 64 = Some [strip hello] <-> strip hello = hello).
Proof. apply (chunk_text_short hello 64). vm_compute. discriminate. Defined.

(** C6 fails as stated: a short text with a leading blank is returned
    untrimmed. *)
Lemma chunk_text_short_untrimmed :
  len (of_string " a") <= 500 /\
  chunk_text (of_string " a") 500 = Some [of_string " a"] /\
  strip (of_string " a") = of_string "a" /\
  chunk_text (of_string " a") 500 <> Some [strip (of_string " a")].
Proof.
  split; [vm_compute; discriminate|]. split; [reflexivity|].
  split; [reflexivity|]. vm_compute. discriminate.
Qed.

(** C7, as the code has it. For every text and every [max_chars >= 1],
    [chunk_text] returns at least one chunk, and a chunk is non-empty as
    soon as the slice it was cut from holds a character that is not white
    space; when the text is longer than [max_chars] every slice is
    non-empty and a chunk is empty exactly when its slice is blank. *)
Theorem chunk_text_nonempty text max_chars :
  1 <= max_chars ->
  exists ps,
    chunk_pieces (enough text) text max_chars = Some ps /\
    chunk_text text max_chars = Some (body <$> ps) /\ ps <> [] /\
    Forall (fun p => (exists c, c ∈ raw text p /\ isspace c = false) ->
                     body p <> []) ps /\
    (max_chars < len text ->
     Forall (fun p => raw text p <> [] /\
                      (body p = [] <-> blank (raw text p))) ps).
Proof.
  intros Hmax.
  destruct (chunk_pieces_fuel text max_chars Hmax)
    as (ps & Hrun & Hch & Hshort & Hlong).
  pose proof (len_nonneg text) as Hlen.
  exists ps. split; [apply Hrun; lia|].
  split; [unfold chunk_text, chunk_text_fuel; rewrite Hrun by lia; reflexivity|].
  destruct (Z_le_gt_dec (len text) max_chars) as [Hle|Hgt].
  - rewrite (Hshort Hle). split; [discriminate|]. split; [|lia].
    constructor; [|constructor]. unfold raw. simpl. rewrite slice_full.
    intros (c & Hin & _) ->. apply elem_of_nil in Hin as [].
  - specialize (Hlong ltac:(lia)). split; [|split].
    + intros ->. simpl in Hch. lia.
    + eapply Forall_impl; [exact Hlong|]. intros p [_ Hbody] (c & Hin & Hc) Hnil.
      rewrite Hbody in Hnil. pose proof (strip_keeps _ _ Hin Hc) as Hkeep.
      rewrite Hnil in Hkeep. apply elem_of_nil in Hkeep as [].
    + intros _. pose proof (chained_hi _ _ _ Hch) as Hhi.
      assert (Hbounds : forall a qs b, 0 <= a -> chained a qs b ->
                Forall (fun q => 0 <= lo q /\ hi q <= b) qs).
      { intros a qs. revert a. induction qs as [|q qs IH]; intros a b Ha Hq.
        - constructor.
        - simpl in Hq. destruct Hq as (Hlo & Hle' & Hq).
          pose proof (chained_hi _ _ _ Hq). constructor; [lia|].
          apply (IH (hi q)); [lia | exact Hq]. }
      specialize (Hbounds 0 ps (len text) ltac:(lia) Hch).
      rewrite Forall_forall in Hlong, Hbounds. apply Forall_forall.
      intros p Hp. destruct (Hlong p Hp) as [Hlt Hbody].
      destruct (Hbounds p Hp) as [Hlo Hhi'].
      split.
      * intros Hnil. apply (f_equal len) in Hnil. unfold raw in Hnil.
        rewrite len_slice in Hnil by lia. unfold len in Hnil at 1.
        simpl in Hnil. lia.
      * rewrite Hbody. apply strip_nil.
Qed.

Lemma chunk_text_nonempty_hello :
  exists ps,
    chunk_pieces (enough hello) hello 20 = Some ps /\
    chunk_text hello 20 = Some (body <$> ps) /\ ps <> [] /\
    Forall (fun p => (exists c, c ∈ raw hello p /\ isspace c = false) ->
                     body p <> []) ps /\
    (20 < len hello ->
     Forall (fun p => raw hello p <> [] /\
                      (body p = [] <-> blank (raw hello p))) ps).
Proof. apply (chunk_text_nonempty hello 20). lia. Defined.

(** C7 fails as stated: blank slices give empty chunks. *)
Lemma chunk_text_empty_chunks :
  1 <= 2 /\
  chunk_text (of_string "ab   ") 2 = Some [of_string "ab"; []; []].
Proof. split; [lia | reflexivity]. Qed.

(** C10. For every text and every [max_chars >= 1], [chunk_text] returns
    (the same chunks whatever the fuel, from [enough text] on).  An
    iteration that goes on moves the cursor strictly forward: by
    [max_chars] on a hard cut, by at least 2 when a delimiter is matched;
    the other iterations end the loop. *)
Theorem chunk_text_terminates text max_chars :
  1 <= max_chars ->
  (exists chunks, forall fuel, (enough text <= fuel)%nat ->
      chunk_text_fuel fuel text max_chars = Some chunks) /\
  (forall fuel chunks cur,
      0 <= cur -> cur + max_chars < len text ->
      let window := slice text cur (cur + max_chars) in
      exists e,
        chunk_loop (S fuel) text max_chars chunks cur =
        chunk_loop fuel text max_chars
          (chunks ++ [Piece cur e (strip (slice text cur e))]) e /\
        cur < e /\
        (Forall (absent window) delimiters -> e = cur + max_chars) /\
        (Exists (occurs_in window) delimiters -> cur + 2 <= e)) /\
  (forall fuel chunks cur,
      0 <= cur < len text -> len text <= cur + max_chars ->
      exists final,
        chunk_loop (S fuel) text max_chars chunks cur = Some (chunks ++ [final])).
Proof.
  intros Hmax. split; [|split].
  - destruct (chunk_pieces_fuel text max_chars Hmax) as (ps & Hrun & _).
    exists (body <$> ps). intros fuel Hf. unfold chunk_text_fuel.
    rewrite (Hrun fuel Hf). reflexivity.
  - intros fuel chunks cur Hcur Hend window.
    destruct (chunk_loop_step text max_chars Hmax fuel chunks cur Hcur Hend)
      as (e & Hstep & _ & Hcases & Hrange).
    exists e. split; [exact Hstep|]. split; [lia|]. split.
    + intros Hno. destruct Hcases as [[_ Hcut]|[Hex _]]; [exact Hcut|].
      exfalso. exact (absent_not_occurs _ _ Hno Hex).
    + intros Hex. destruct Hcases as [[Hno _]|[_ Hadv]]; [|exact Hadv].
      exfalso. exact (absent_not_occurs _ _ Hno Hex).
  - intros fuel chunks cur Hcur Hend. eexists.
    apply chunk_loop_last; assumption.
Qed.

Lemma chunk_text_terminates_hello :
  (exists chunks, forall fuel, (enough hello <= fuel)%nat ->
      chunk_text_fuel fuel hello 20 = Some chunks) /\
  (forall fuel chunks cur,
      0 <= cur -> cur + 20 < len hello ->
      let window := slice hello cur (cur + 20) in
      exists e,
        chunk_loop (S fuel) hello 20 chunks cur =
        chunk_loop fuel hello 20
          (chunks ++ [Piece cur e (strip (slice hello cur e))]) e /\
        cur < e /\
        (Forall (absent window) delimiters -> e = cur + 20) /\
        (Exists (occurs_in window) delimiters -> cur + 2 <= e)) /\
  (forall fuel chunks cur,
      0 <= cur < len hello -> len hello <= cur + 20 ->
      exists final,
        chunk_loop (S fuel) hello 20 chunks cur = Some (chunks ++ [final])).
Proof. apply (chunk_text_terminates hello 20). lia. Defined.

(** ** Properties of the processor and of the driver *)

Section processor_properties.
Context `{Collaborators}.
Variable base_dir : path.

Implicit Types (w : world) (p out : path).

(** C4, as the code has it. Once the model is there (it was loaded
    before, or it loads now), [generate_audio_chunk] is decided by the
    [infer] call and by the write of the file: when [infer] returns audio
    and the file is written, the result is [True] and the files on disk
    change at [output_path] only, which now holds this audio at 24000 Hz,
    whatever it held before; when [infer] raises, the result is [False]
    and no file on disk has changed; when [infer] returns audio and the
    write raises, the result is [False] and the files on disk are as
    before, but for what the failed write has left at [output_path].
    When the model is not there and fails to load, the exception of the
    load is raised, and no file on disk has changed. *)
Theorem generate_audio_chunk_outcome text ra rt out w :
  (forall w1 model,
      ensure_f5tts_model w = Some (Return (), w1) ->
      f5tts_model w1 = Some model ->
      (forall b audio_data d,
          infer model ra rt text (synthesis w1) = (b, inr audio_data) ->
          write_outcome out audio_data 24000 (disk w) = (d, None) ->
          exists w',
            generate_audio_chunk text ra rt out w = Some (Return true, w') /\
            sounds w' =
            <[out := Wav (Sound (stored audio_data) 24000)]> (sounds w)) /\
      (forall b e,
          infer model ra rt text (synthesis w1) = (b, inl e) ->
          exists w',
            generate_audio_chunk text ra rt out w = Some (Return false, w') /\
            sounds w' = sounds w) /\
      (forall b audio_data d e remains,
          infer model ra rt text (synthesis w1) = (b, inr audio_data) ->
          write_outcome out audio_data 24000 (disk w) = (d, Some (e, remains)) ->
          exists w',
            generate_audio_chunk text ra rt out w = Some (Return false, w') /\
            sounds w' = leftover out remains (sounds w))) /\
  (forall b e,
      f5tts_model w = None ->
      F5TTS_new (synthesis w) = (b, inl e) ->
      exists w',
        generate_audio_chunk text ra rt out w = Some (Raise e, w') /\
        sounds w' = sounds w).
Proof.
  split.
  - intros w1 model Hens Hm.
    pose proof (generate_audio_chunk_run text ra rt out w w1 model Hens Hm)
      as Hrun.
    destruct (ensure_keeps_files _ _ _ Hens) as (Hs & _).
    rewrite (ensure_keeps_disk _ _ _ Hens) in Hrun.
    split; [|split].
    + intros b a d Hinfer Hwrite. rewrite Hinfer, Hwrite in Hrun.
      eexists. split; [exact Hrun|]. simpl. rewrite Hs. reflexivity.
    + intros b e Hinfer. rewrite Hinfer in Hrun.
      eexists. split; [exact Hrun|]. simpl. exact Hs.
    + intros b a d e remains Hinfer Hwrite. rewrite Hinfer, Hwrite in Hrun.
      eexists. split; [exact Hrun|]. simpl. rewrite Hs. reflexivity.
  - intros b e Hm Hload. eexists. split.
    + apply generate_audio_chunk_load_failure; eassumption.
    + reflexivity.
Qed.

(** C5. For a non-empty list of input files: if one of them cannot be
    read, [merge_audio_files] returns [False] and leaves the world as it
    was, the output path included; and whenever it returns [True] or
    leaves the files on disk changed, every input could be read: nothing
    is written unless every input was read. *)
Theorem merge_audio_files_all_or_nothing audio_files out w :
  audio_files <> [] ->
  ((exists f, f ∈ audio_files /\ ~ readable w f) ->
     merge_audio_files audio_files out w = Some (Return false, w)) /\
  (forall r w',
      merge_audio_files audio_files out w = Some (r, w') ->
      r = Return true \/ sounds w' <> sounds w ->
      Forall (readable w) audio_files).
Proof.
  intros Hne. split.
  - intros (f & Hin & Hf). eapply merge_audio_files_missing; eassumption.
  - intros r w' Hrun Hwritten.
    destruct (readable_all_or_not audio_files w) as [Hall|(f & Hin & Hf)];
      [exact Hall|].
    rewrite (merge_audio_files_missing _ out _ _ Hin Hf) in Hrun.
    injection Hrun as <- <-. destruct Hwritten; congruence.
Qed.

(** C2, as the code has it. A readable script whose model is there: the
    chunks are those of [chunk_text] with 500; with [good] the indices
    and audio of the chunks whose [infer] call succeeds and whose file is
    then written, in the order of the calls (and so of the indices), and
    at least one of them, the chunk loop returns the chunk files of
    [good], in that order, each holding what a file keeps of the audio of
    its chunk; the other chunks are skipped and stop nothing.  Then
    [process_script] returns these chunk files followed by the merged
    file when the arrays read from them can be concatenated and the merged
    file is written, and the merged file holds what a file keeps of their
    concatenation in that order; otherwise it returns the chunk files
    alone. *)
Theorem process_script_skips_failures script_path ra rt upload_to_drive
    drive_folder_id w w1 t model :
  scripts w !! script_path = Some t ->
  ensure_f5tts_model w = Some (Return (), w1) ->
  f5tts_model w1 = Some model ->
  exists chunks,
    chunk_text (strip t) 500 = Some chunks /\
    forall good,
      good = generated base_dir (stem script_path) model ra rt (synthesis w1)
               (disk w1) chunks 0 ->
      good <> [] ->
      StronglySorted lt good.*1 /\
      good ⊆ synthesized model ra rt (synthesis w1) chunks 0 /\
      exists w2 w',
        generate_chunks base_dir (stem script_path) ra rt upload_to_drive
          drive_folder_id chunks 0 [] w =
        Some (Return (chunk_output base_dir (stem script_path) <$> good.*1),
              w2) /\
        (forall k a, (k, a) ∈ good ->
           sounds w' !! chunk_output base_dir (stem script_path) k =
           Some (Wav (Sound (stored a) 24000))) /\
        (forall merged_audio d,
           concatenate (stored <$> good.*2) = Some merged_audio ->
           write_outcome (final_output base_dir (stem script_path))
             merged_audio 24000 (disk w2) = (d, None) ->
           process_script base_dir script_path ra rt upload_to_drive
             drive_folder_id w =
           Some (Return ((chunk_output base_dir (stem script_path) <$> good.*1)
                         ++ [final_output base_dir (stem script_path)]), w') /\
           sounds w' !! final_output base_dir (stem script_path) =
           Some (Wav (Sound (stored merged_audio) 24000))) /\
        (concatenate (stored <$> good.*2) = None \/
         (exists merged_audio d failure,
            concatenate (stored <$> good.*2) = Some merged_audio /\
            write_outcome (final_output base_dir (stem script_path))
              merged_audio 24000 (disk w2) = (d, Some failure)) ->
         process_script base_dir script_path ra rt upload_to_drive
           drive_folder_id w =
         Some (Return (chunk_output base_dir (stem script_path) <$> good.*1),
               w')).
Proof.
  intros Ht Hens Hm.
  destruct (process_script_run base_dir script_path ra rt upload_to_drive
              drive_folder_id w t Ht) as (chunks & Hc & Hne & Hrun).
  exists chunks. split; [exact Hc|]. intros good -> Hgood.
  split; [apply generated_increasing|].
  split; [apply generated_synthesized|].
  destruct (generate_chunks_run base_dir (stem script_path) ra rt
              upload_to_drive drive_folder_id chunks 0 [] w1 model Hm)
    as (w2 & Hgen & _ & _ & Hfiles & _).
  destruct (merge_chunks_run base_dir (stem script_path) upload_to_drive
              drive_folder_id _ w2 Hgood Hfiles)
    as (w3 & _ & _ & Hmerge).
  rewrite <- (generate_chunks_ensure base_dir _ _ _ _ _ _ _ _ _ _ _ Hens Hm Hne)
    in Hgen.
  exists w2, w3. split; [exact Hgen|].
  assert (Hps : forall files,
             merge_chunks base_dir (stem script_path) upload_to_drive
               drive_folder_id
               (chunk_output base_dir (stem script_path) <$>
                (generated base_dir (stem script_path) model ra rt
                   (synthesis w1) (disk w1) chunks 0).*1) w2 =
             Some (Return files, w3) ->
             process_script base_dir script_path ra rt upload_to_drive
               drive_folder_id w = Some (Return files, w3)).
  { intros files Hm3. rewrite Hrun. unfold mbind, M_bind. rewrite Hgen.
    exact Hm3. }
  destruct (concatenate _) as [merged|] eqn:Hcat.
  - destruct (write_outcome _ merged 24000 (disk w2)) as [d [[e remains]|]]
      eqn:Hwrite; destruct Hmerge as (Hm3 & Hs3).
    + split; [|split].
      * intros k a Hin. rewrite Hs3, leftover_ne; [apply Hfiles, Hin|].
        intros Heq. symmetry in Heq. exact (final_output_fresh _ _ _ _ Heq).
      * intros merged' d' [= <-] Hw. rewrite Hwrite in Hw. discriminate.
      * intros _. apply Hps, Hm3.
    + split; [|split].
      * intros k a Hin. rewrite Hs3, lookup_insert_ne; [apply Hfiles, Hin|].
        apply final_output_fresh.
      * intros merged' d' [= <-] _. split; [apply Hps, Hm3|].
        rewrite Hs3. apply lookup_insert_eq.
      * intros [[=]|(merged' & d' & failure & [= <-] & Hw)].
        rewrite Hwrite in Hw. discriminate.
  - destruct Hmerge as (Hm3 & ->). split; [|split].
    + apply Hfiles.
    + intros merged' d' [=].
    + intros _. apply Hps, Hm3.
Qed.

(** C9. When [process_script] raises for a script, the loop of
    [run_pipeline] catches the exception, prints the failure of that
    script, keeps the files collected so far and goes on with the next
    scripts from the world the failed script left; the loop itself
    always ends by returning. *)
Theorem run_isolation config ra rt script_file rest i all w e w1 :
  process_script base_dir script_file ra rt
    (truthy (config_get config "auto_upload" (JBool true)))
    (config !! "output_folder_id") w = Some (Raise e, w1) ->
  process_each_script base_dir config ra rt (script_file :: rest) i all w =
  process_each_script base_dir config ra rt rest (S i) all
    (set_console (console w1 ++ [ScriptFailed script_file e]) w1) /\
  exists files w',
    process_each_script base_dir config ra rt (script_file :: rest) i all w =
    Some (Return files, w').
Proof.
  intros Hfail. split; [|apply process_each_script_returns].
  cbn [process_each_script]. unfold mbind at 1. unfold M_bind at 1.
  unfold try_except. unfold mbind at 1. unfold M_bind at 1.
  rewrite Hfail. reflexivity.
Qed.

(** A script that succeeds adds its files and its line, and the loop
    goes on. *)
Lemma process_each_script_success config ra rt script_file rest i all w fs w1 :
  process_script base_dir script_file ra rt
    (truthy (config_get config "auto_upload" (JBool true)))
    (config !! "output_folder_id") w = Some (Return fs, w1) ->
  process_each_script base_dir config ra rt (script_file :: rest) i all w =
  process_each_script base_dir config ra rt rest (S i) (all ++ fs)
    (set_console (console w1 ++ [ScriptComplete i (length fs)]) w1).
Proof.
  intros Hok. cbn [process_each_script]. unfold mbind at 1. unfold M_bind at 1.
  unfold try_except. unfold mbind at 1. unfold M_bind at 1.
  rewrite Hok. reflexivity.
Qed.

(** C8, as the code has it. The loop of [run_pipeline] does not consult
    [chunk_size]: whatever value the configuration gives it, the run is
    the same; and [process_script] cuts every script with the fixed
    [max_chars=500]. *)
Theorem chunk_size_not_consulted config v ra rt script_files i all w :
  process_each_script base_dir (<["chunk_size" := v]> config) ra rt
    script_files i all w =
  process_each_script base_dir config ra rt script_files i all w /\
  (forall script_path upload_to_drive drive_folder_id t,
      scripts w !! script_path = Some t ->
      exists chunks,
        chunk_text (strip t) 500 = Some chunks /\
        process_script base_dir script_path ra rt upload_to_drive
          drive_folder_id w =
        (generated_files ←
           generate_chunks base_dir (stem script_path) ra rt upload_to_drive
             drive_folder_id chunks 0 [];
         merge_chunks base_dir (stem script_path) upload_to_drive
           drive_folder_id generated_files) w).
Proof.
  split.
  - revert i all w. induction script_files as [|s rest IH]; intros i all w.
    + reflexivity.
    + cbn [process_each_script]. unfold config_get.
      rewrite !lookup_insert_ne by discriminate.
      apply bind_ext. intros files w1. apply IH.
  - intros script_path upload_to_drive drive_folder_id t Ht.
    destruct (process_script_run base_dir script_path ra rt upload_to_drive
                drive_folder_id w t Ht) as (chunks & Hc & _ & Hrun).
    eauto.
Qed.
End processor_properties.

(** ** The processor at work on the small instance *)

Section instances.
Local Existing Instance demo.

Example posix_stem_names :
  posix_stem "/base/scripts/video1.txt" = "video1"%string /\
  posix_stem "notes.tar.gz" = "notes.tar"%string /\
  posix_stem "scripts/.hidden" = ".hidden"%string /\
  posix_stem "name." = "name."%string /\
  posix_stem "long" = "long"%string.
Proof. repeat split; reflexivity. Qed.

(** The call succeeds and the file is written: the result is [True] and
    the file holds the audio.  The failing call: the result is [False] and
    the disk is untouched. *)
Example generate_audio_chunk_demo :
  (fun r => (r.1, sounds r.2)) <$>
    generate_audio_chunk hello "ref.wav" [] "out.wav" two_sounds =
  Some (Return true,
        <["out.wav" := Wav (Sound (NDArray (Z.of_N <$> hello) []) 24000)]>
          (sounds two_sounds)) /\
  (fun r => (r.1, sounds r.2)) <$>
    generate_audio_chunk hello "ref.wav" [] "out.wav" third_call =
  Some (Return false, sounds third_call).
Proof. split; vm_compute; reflexivity. Qed.

(** C4 fails as stated: the [infer] call succeeds, the write of the file
    raises, and the result is [False], with the file that was there
    damaged; and when the model fails to load, the call raises instead of
    returning [False]. *)
Lemma generate_audio_chunk_write_fails :
  infer (Collaborators := worn_disk) () "ref.wav" [] hello 0%nat =
  (1%nat, inr (NDArray (Z.of_N <$> hello) [])) /\
  sounds fifth_write !! "out.wav" = Some (Wav (Sound (NDArray [7] []) 24000)) /\
  (fun r => (r.1, sounds r.2 !! "out.wav")) <$>
    generate_audio_chunk (H := worn_disk) hello "ref.wav" [] "out.wav"
      fifth_write =
  Some (Return false, Some Damaged) /\
  generate_audio_chunk (H := no_model) hello "ref.wav" [] "out.wav" unloaded =
  Some (Raise (ServiceError 7), set_synthesis (H := no_model) 1%nat unloaded).
Proof. repeat split; vm_compute; reflexivity. Qed.

Lemma merge_audio_files_demo :
  ((exists f, f ∈ ["a.wav"; "c.wav"; "b.wav"] /\ ~ readable two_sounds f) ->
     merge_audio_files ["a.wav"; "c.wav"; "b.wav"] "out.wav" two_sounds =
     Some (Return false, two_sounds)) /\
  (forall r w',
      merge_audio_files ["a.wav"; "c.wav"; "b.wav"] "out.wav" two_sounds =
      Some (r, w') ->
      r = Return true \/ sounds w' <> sounds two_sounds ->
      Forall (readable two_sounds) ["a.wav"; "c.wav"; "b.wav"]).
Proof.
  apply (merge_audio_files_all_or_nothing ["a.wav"; "c.wav"; "b.wav"] "out.wav"
           two_sounds).
  discriminate.
Defined.

(** Two readable files are concatenated in order; with a missing third
    one nothing is written. *)
Example merge_two_sounds :
  (fun r => (r.1, sounds r.2 !! "out.wav")) <$>
    merge_audio_files ["a.wav"; "b.wav"] "out.wav" two_sounds =
  Some (Return true, Some (Wav (Sound (NDArray [1; 2; 3] []) 24000))) /\
  merge_audio_files ["a.wav"; "c.wav"; "b.wav"] "out.wav" two_sounds =
  Some (Return false, two_sounds).
Proof. split; vm_compute; reflexivity. Qed.

Lemma process_script_five_segments :
  exists chunks,
    chunk_text (strip long_text) 500 = Some chunks /\
    forall good,
      good = generated "/base" (stem "long.txt") () "ref.wav" []
               (synthesis five_segments) (disk five_segments) chunks 0 ->
      good <> [] ->
      StronglySorted lt good.*1 /\
      good ⊆ synthesized () "ref.wav" [] (synthesis five_segments) chunks 0 /\
      exists w2 w',
        generate_chunks "/base" (stem "long.txt") "ref.wav" [] true None
          chunks 0 [] five_segments =
        Some (Return (chunk_output "/base" (stem "long.txt") <$> good.*1),
              w2) /\
        (forall k a, (k, a) ∈ good ->
           sounds w' !! chunk_output "/base" (stem "long.txt") k =
           Some (Wav (Sound (stored a) 24000))) /\
        (forall merged_audio d,
           concatenate (stored <$> good.*2) = Some merged_audio ->
           write_outcome (final_output "/base" (stem "long.txt"))
             merged_audio 24000 (disk w2) = (d, None) ->
           process_script "/base" "long.txt" "ref.wav" [] true None
             five_segments =
           Some (Return ((chunk_output "/base" (stem "long.txt") <$> good.*1)
                         ++ [final_output "/base" (stem "long.txt")]), w') /\
           sounds w' !! final_output "/base" (stem "long.txt") =
           Some (Wav (Sound (stored merged_audio) 24000))) /\
        (concatenate (stored <$> good.*2) = None \/
         (exists merged_audio d failure,
            concatenate (stored <$> good.*2) = Some merged_audio /\
            write_outcome (final_output "/base" (stem "long.txt"))
              merged_audio 24000 (disk w2) = (d, Some failure)) ->
         process_script "/base" "long.txt" "ref.wav" [] true None
           five_segments =
         Some (Return (chunk_output "/base" (stem "long.txt") <$> good.*1),
               w')).
Proof.
  apply (process_script_skips_failures "/base" "long.txt" "ref.wav" [] true
           None five_segments five_segments long_text ());
    vm_compute; reflexivity.
Defined.

(** The five segments of the specification: the call for segment 2
    fails, the files of segments 0, 1, 3 and 4 are returned in that
    order, followed by the merged file, which holds their 1501 samples. *)
Example five_segments_run :
  length <$> chunk_text (strip long_text) 500 = Some 5%nat /\
  (fun chunks => (synthesized () "ref.wav" [] 0%nat chunks 0).*1) <$>
    chunk_text (strip long_text) 500 = Some [0; 1; 3; 4]%nat /\
  (fun r => (r.1, sounds r.2 !! "/base/output/generated_audio/long_complete.wav")) <$>
    process_script "/base" "long.txt" "ref.wav" [] true None five_segments =
  Some (Return ["/base/temp/long_chunk_001.wav";
                "/base/temp/long_chunk_002.wav";
                "/base/temp/long_chunk_004.wav";
                "/base/temp/long_chunk_005.wav";
                "/base/output/generated_audio/long_complete.wav"],
        Some (Wav (Sound (NDArray (replicate 1501 120) []) 24000))).
Proof. repeat split; vm_compute; reflexivity. Qed.

(** C2 fails as stated: of five segments the synthesis call fails for
    segment 2 and succeeds for segments 0, 1, 3 and 4.  When the write of
    the chunk file of segment 1 raises, the files returned are those of
    segments 0, 3 and 4, followed by the merged file, which holds their
    1001 samples and not the 1501 of the four segments synthesized.  When
    the four chunk files are written and the write of the merged file
    raises, the four chunk files are returned and no merged file with
    them. *)
Lemma process_script_write_fails :
  length <$> chunk_text (strip long_text) 500 = Some 5%nat /\
  (fun chunks =>
     (synthesized (H := worn_disk) () "ref.wav" [] 0%nat chunks 0).*1) <$>
    chunk_text (strip long_text) 500 = Some [0; 1; 3; 4]%nat /\
  (fun r => (r.1,
             sounds r.2 !! "/base/temp/long_chunk_002.wav",
             sounds r.2 !! "/base/output/generated_audio/long_complete.wav")) <$>
    process_script (H := worn_disk) "/base" "long.txt" "ref.wav" [] true None
      (worn_world 3 [("long.txt"%string, long_text)]) =
  Some (Return ["/base/temp/long_chunk_001.wav";
                "/base/temp/long_chunk_004.wav";
                "/base/temp/long_chunk_005.wav";
                "/base/output/generated_audio/long_complete.wav"],
        Some Damaged,
        Some (Wav (Sound (NDArray (replicate 1001 120) []) 24000))) /\
  (fun r => (r.1,
             sounds r.2 !! "/base/output/generated_audio/long_complete.wav")) <$>
    process_script (H := worn_disk) "/base" "long.txt" "ref.wav" [] true None
      (worn_world 0 [("long.txt"%string, long_text)]) =
  Some (Return ["/base/temp/long_chunk_001.wav";
                "/base/temp/long_chunk_002.wav";
                "/base/temp/long_chunk_004.wav";
                "/base/temp/long_chunk_005.wav"],
        Some Damaged).
Proof. repeat split; vm_compute; reflexivity. Qed.

(** When the arrays read from the chunk files cannot be concatenated, or
    the merged file cannot be written, the chunk files are returned
    alone. *)
Example merge_failures :
  merge_audio_files ["a.wav"; "s.wav"] "out.wav" mono_and_stereo =
  Some (Return false, mono_and_stereo) /\
  (fun r => r.1) <$>
    process_script (H := worn_disk) "/base" "ok.txt" "ref.wav" [] true None
      (worn_world 3 [("ok.txt"%string, of_string "Hi there.")]) =
  Some (Return ["/base/temp/ok_chunk_001.wav"]).
Proof. repeat split; vm_compute; reflexivity. Qed.

Lemma run_isolation_demo :
  process_each_script "/base" ∅ "ref.wav" [] ["missing.txt"; "ok.txt"] 1 []
    two_scripts =
  process_each_script "/base" ∅ "ref.wav" [] ["ok.txt"] 2 []
    (set_console
       (console two_scripts ++
        [ScriptFailed "missing.txt" (FileNotFoundError "missing.txt")])
       two_scripts) /\
  exists files w',
    process_each_script "/base" ∅ "ref.wav" [] ["missing.txt"; "ok.txt"] 1 []
      two_scripts = Some (Return files, w').
Proof.
  apply (run_isolation "/base" ∅ "ref.wav" [] "missing.txt" ["ok.txt"] 1 []
           two_scripts (FileNotFoundError "missing.txt") two_scripts).
  vm_compute. reflexivity.
Defined.

(** After the script that cannot be read, the next one completes: its
    two files are returned and the console holds one line for each. *)
Example run_after_failure :
  (fun r => (r.1, console r.2)) <$>
    process_each_script "/base" ∅ "ref.wav" [] ["missing.txt"; "ok.txt"] 1 []
      two_scripts =
  Some (Return ["/base/temp/ok_chunk_001.wav";
                "/base/output/generated_audio/ok_complete.wav"],
        [ScriptFailed "missing.txt" (FileNotFoundError "missing.txt");
         ScriptComplete 2 2]).
Proof. vm_compute. reflexivity. Qed.

(** C8 fails as stated: with [chunk_size] set to 3, a script of eight
    characters, which [chunk_text] cuts in three with [max_chars = 3],
    is synthesized as the single segment of the cut with 500. *)
Lemma chunk_size_ignored :
  small_chunks !! "chunk_size" = Some (JInt 3) /\
  chunk_text (of_string "abcdefgh") 3 =
  Some [of_string "abc"; of_string "def"; of_string "gh"] /\
  (fun r => (r.1, sounds r.2 !! "/base/temp/s_chunk_001.wav",
             sounds r.2 !! "/base/temp/s_chunk_002.wav")) <$>
    process_each_script "/base" small_chunks "ref.wav" [] ["s.txt"] 1 []
      short_script =
  Some (Return ["/base/temp/s_chunk_001.wav";
                "/base/output/generated_audio/s_complete.wav"],
        Some (Wav (Sound (NDArray (Z.of_N <$> of_string "abcdefgh") []) 24000)),
        None).
Proof. repeat split; vm_compute; reflexivity. Qed.
End instances.

(** ** More on the segmenter *)

Section segmenter_more.
Implicit Types (s text : str) (p : piece).

Lemma len_strip_le s : len (strip s) <= len s.
Proof.
  destruct (strip_split s) as (l & r & Heq & _).
  rewrite Heq at 2. rewrite !len_app.
  pose proof (len_nonneg l). pose proof (len_nonneg r). lia.
Qed.

Lemma lstrip_head s x : head (lstrip s) = Some x -> isspace x = false.
Proof.
  induction s as [|c s IH]; simpl; [discriminate|].
  destruct (isspace c) eqn:Hc; [exact IH|]. simpl. intros [= <-]. exact Hc.
Qed.

Lemma lstrip_last s x : last (lstrip s) = Some x -> last s = Some x.
Proof.
  intros Hx. destruct (lstrip_split s) as (l & Heq & _). rewrite Heq.
  rewrite last_app, Hx. reflexivity.
Qed.

(** A trimmed string neither starts nor ends with white space. *)
Lemma strip_ends s :
  (forall x, head (strip s) = Some x -> isspace x = false) /\
  (forall x, last (strip s) = Some x -> isspace x = false).
Proof.
  unfold strip, rstrip. split; intros x Hx.
  - rewrite head_reverse in Hx. apply lstrip_last in Hx.
    rewrite last_reverse in Hx. eapply lstrip_head, Hx.
  - rewrite last_reverse in Hx. eapply lstrip_head, Hx.
Qed.

(** The slice of a text between two positions, within the text. *)
Lemma slice_split s a b :
  0 <= a <= b -> b <= len s ->
  s = slice s 0 a ++ slice s a b ++ slice s b (len s).
Proof.
  intros Hab Hb. pose proof (len_nonneg s).
  rewrite (slice_app s a b (len s)) by lia.
  rewrite (slice_app s 0 a (len s)) by lia.
  symmetry. apply slice_full.
Qed.

Lemma occurs_at_slice s a b d i :
  0 <= a <= b -> b <= len s ->
  occurs_at (slice s a b) d i -> occurs_at s d (a + i).
Proof.
  intros Hab Hb (pre & post & Heq & Hpre).
  exists (slice s 0 a ++ pre), (post ++ slice s b (len s)). split.
  - rewrite (slice_split s a b Hab Hb) at 1. rewrite Heq.
    rewrite <- !app_assoc. reflexivity.
  - rewrite len_app, len_slice by lia. lia.
Qed.

Lemma absent_slice s a b d :
  0 <= a <= b -> b <= len s -> absent s d -> absent (slice s a b) d.
Proof.
  intros Hab Hb Hno i Hocc. eapply Hno, occurs_at_slice; eassumption.
Qed.

(** The start of a slice is a slice. *)
Lemma slice_take s a e b :
  0 <= a <= e -> e <= b -> b <= len s ->
  slice s a e = take (Z.to_nat (e - a)) (slice s a b).
Proof.
  intros Hae Heb Hb. rewrite !slice_inside by lia.
  rewrite take_take. f_equal. lia.
Qed.

(** What holds of the piece of every iteration holds of all the pieces the
    loop appends. *)
Lemma chunk_loop_pieces text max_chars (Q : piece -> Prop) :
  (forall cur, 0 <= cur -> cur + max_chars < len text ->
     Q (Piece cur
          (find_sentence_end (slice text cur (cur + max_chars)) delimiters
             cur (cur + max_chars))
          (strip (slice text cur
                    (find_sentence_end (slice text cur (cur + max_chars))
                       delimiters cur (cur + max_chars)))))) ->
  (forall cur, 0 <= cur < len text -> len text <= cur + max_chars ->
     Q (Piece cur (len text) (strip (slice text cur (len text))))) ->
  1 <= max_chars ->
  forall fuel chunks cur res,
    0 <= cur ->
    chunk_loop fuel text max_chars chunks cur = Some res ->
    exists ps, res = chunks ++ ps /\ Forall Q ps.
Proof.
  intros Hstep Hlast Hmax.
  induction fuel as [|fuel IH]; intros chunks cur res Hcur Hrun;
    [discriminate|].
  destruct (Z_lt_le_dec cur (len text)) as [Hin|Hout].
  - destruct (Z_lt_le_dec (cur + max_chars) (len text)) as [Hlt|Hge].
    + destruct (chunk_loop_step text max_chars Hmax fuel chunks cur Hcur Hlt)
        as (e & Heq & He & _ & Hrange).
      rewrite Heq in Hrun. apply IH in Hrun as (ps & -> & Hps); [|lia].
      eexists (_ :: ps). rewrite <- app_assoc. split; [reflexivity|].
      constructor; [|exact Hps]. subst e. apply Hstep; assumption.
    + rewrite chunk_loop_last in Hrun by (assumption || lia).
      injection Hrun as <-. eexists [_]. split; [reflexivity|].
      constructor; [|constructor]. apply Hlast; lia.
  - simpl in Hrun. destruct (Z.ltb_spec cur (len text)); [lia|].
    injection Hrun as <-. exists []. rewrite app_nil_r.
    split; [reflexivity | constructor].
Qed.

Lemma chunk_pieces_all text max_chars (Q : piece -> Prop) :
  (len text <= max_chars -> Q (Piece 0 (len text) text)) ->
  (forall cur, 0 <= cur -> cur + max_chars < len text ->
     Q (Piece cur
          (find_sentence_end (slice text cur (cur + max_chars)) delimiters
             cur (cur + max_chars))
          (strip (slice text cur
                    (find_sentence_end (slice text cur (cur + max_chars))
                       delimiters cur (cur + max_chars)))))) ->
  (forall cur, 0 <= cur < len text -> len text <= cur + max_chars ->
     Q (Piece cur (len text) (strip (slice text cur (len text))))) ->
  1 <= max_chars ->
  exists ps,
    chunk_pieces (enough text) text max_chars = Some ps /\
    chunk_text text max_chars = Some (body <$> ps) /\
    chained 0 ps (len text) /\ Forall Q ps.
Proof.
  intros Hshort Hstep Hlast Hmax.
  destruct (chunk_pieces_fuel text max_chars Hmax) as (ps & Hrun & Hch & Hone & _).
  specialize (Hrun (enough text) ltac:(lia)).
  exists ps. split; [exact Hrun|].
  split; [unfold chunk_text, chunk_text_fuel; rewrite Hrun; reflexivity|].
  split; [exact Hch|].
  unfold chunk_pieces in Hrun.
  destruct (Z.leb_spec (len text) max_chars) as [Hle|Hgt].
  - injection Hrun as <-. constructor; [auto | constructor].
  - destruct (chunk_loop_pieces text max_chars Q Hstep Hlast Hmax _ [] 0 _
                (Z.le_refl 0) Hrun) as (qs & -> & Hqs).
    exact Hqs.
Qed.
End segmenter_more.



(** The boundaries of [hello] with [max_chars = 20]: the first one is right
    after ["Hello world. "], the only sentence end of its window; the next
    windows hold none and are cut after 20 characters. *)
Example boundaries_hello :
  (fun ps : list piece => (fun p => (lo p, hi p)) <$> ps) <$>
    chunk_pieces (enough hello) hello 20 =
  Some [(0, 13); (13, 33); (33, 53); (53, 64)] /\
  len hello = 64.
Proof. split; vm_compute; reflexivity. Qed.


Lemma chained_count a ps b max_chars :
  chained a ps b ->
  Forall (fun p => hi p <= lo p + max_chars) ps ->
  b - a <= Z.of_nat (length ps) * max_chars.
Proof.
  revert a. induction ps as [|p ps IH]; intros a Hch Hall; simpl in Hch.
  - simpl. lia.
  - destruct Hch as (Hlo & _ & Hch). apply Forall_cons in Hall as [Hp Hall].
    specialize (IH _ Hch Hall). rewrite length_cons. lia.
Qed.

Lemma chained_count_min a ps b :
  chained a ps b ->
  Forall (fun p => lo p < hi p) ps ->
  Z.of_nat (length ps) <= b - a.
Proof.
  revert a. induction ps as [|p ps IH]; intros a Hch Hall; simpl in Hch.
  - simpl. lia.
  - destruct Hch as (Hlo & _ & Hch). apply Forall_cons in Hall as [Hp Hall].
    specialize (IH _ Hch Hall). rewrite length_cons. lia.
Qed.

(** X1. No chunk is longer than [max_chars]. *)
Theorem chunk_text_bounded text max_chars :
  1 <= max_chars ->
  exists chunks,
    chunk_text text max_chars = Some chunks /\
    Forall (fun c => len c <= max_chars) chunks.
Proof.
  intros Hmax.
  destruct (chunk_pieces_all text max_chars
              (fun p => len (body p) <= max_chars)) as (ps & _ & Hrun & _ & Hall).
  - auto.
  - intros cur Hcur Hend. simpl.
    pose proof (sentence_end_progress text max_chars cur Hmax Hcur Hend)
      as [_ Hrange]. simpl in Hrange.
    etransitivity; [apply len_strip_le|]. rewrite len_slice by lia. lia.
  - intros cur Hcur Hend. simpl.
    etransitivity; [apply len_strip_le|]. rewrite len_slice by lia. lia.
  - exact Hmax.
  - exists (body <$> ps). split; [exact Hrun|]. apply Forall_fmap. exact Hall.
Qed.

Lemma chunk_text_bounded_hello :
  exists chunks,
    chunk_text hello 20 = Some chunks /\ Forall (fun c => len c <= 20) chunks.
Proof. apply (chunk_text_bounded hello 20). lia. Defined.

(** X2. When the text is longer than [max_chars], no chunk starts or ends
    with white space. *)
Theorem chunk_text_trimmed text max_chars :
  1 <= max_chars -> max_chars < len text ->
  exists chunks,
    chunk_text text max_chars = Some chunks /\
    Forall (fun c => (forall x, head c = Some x -> isspace x = false) /\
                     (forall x, last c = Some x -> isspace x = false)) chunks.
Proof.
  intros Hmax Hlong.
  destruct (chunk_pieces_all text max_chars
              (fun p => (forall x, head (body p) = Some x -> isspace x = false) /\
                        (forall x, last (body p) = Some x -> isspace x = false)))
    as (ps & _ & Hrun & _ & Hall).
  - lia.
  - intros cur _ _. apply strip_ends.
  - intros cur _ _. apply strip_ends.
  - exact Hmax.
  - exists (body <$> ps). split; [exact Hrun|]. apply Forall_fmap. exact Hall.
Qed.

Lemma chunk_text_trimmed_hello :
  exists chunks,
    chunk_text hello 20 = Some chunks /\
    Forall (fun c => (forall x, head c = Some x -> isspace x = false) /\
                     (forall x, last c = Some x -> isspace x = false)) chunks.
Proof.
  apply (chunk_text_trimmed hello 20); [lia | vm_compute; reflexivity].
Defined.

(** X3. A text in which no delimiter occurs is cut every [max_chars]
    characters: each slice ends [max_chars] after its start, or at the end
    of the text if that comes first. *)
Theorem chunk_text_hard_cuts text max_chars :
  1 <= max_chars -> Forall (absent text) delimiters ->
  exists ps,
    chunk_pieces (enough text) text max_chars = Some ps /\
    chunk_text text max_chars = Some (body <$> ps) /\
    chained 0 ps (len text) /\
    Forall (fun p => hi p = Z.min (lo p + max_chars) (len text)) ps.
Proof.
  intros Hmax Hno. apply chunk_pieces_all; [| | |exact Hmax].
  - intros Hle. simpl. lia.
  - intros cur Hcur Hend. cbn [hi lo].
    rewrite <- (app_nil_r delimiters), find_sentence_end_skip; [simpl; lia|].
    eapply Forall_impl; [exact Hno|]. intros d Hd.
    apply absent_slice; [lia | lia | exact Hd].
  - intros cur Hcur Hend. simpl. lia.
Qed.

Lemma chunk_text_hard_cuts_plain :
  exists ps,
    chunk_pieces (enough plain_text) plain_text 500 = Some ps /\
    chunk_text plain_text 500 = Some (body <$> ps) /\
    chained 0 ps (len plain_text) /\
    Forall (fun p => hi p = Z.min (lo p + 500) (len plain_text)) ps.
Proof.
  apply (chunk_text_hard_cuts plain_text 500); [lia|].
  unfold delimiters.
  repeat (apply List.Forall_cons;
          [refine (proj1 (rfind_none plain_text _) _); vm_compute;
           reflexivity|]).
  apply List.Forall_nil.
Defined.

(** A thousand characters without a sentence end, cut at 500: two chunks of
    500 characters. *)
Example plain_text_chunks :
  chunk_text plain_text 500 = Some [replicate 500 120%N; replicate 500 120%N].
Proof. vm_compute. reflexivity. Qed.

(** X4. Every slice ends at the end of the text, or [max_chars] after its
    start, or with one of the delimiters. *)
Theorem chunk_text_sentence_ends text max_chars :
  1 <= max_chars ->
  exists ps,
    chunk_pieces (enough text) text max_chars = Some ps /\
    chunk_text text max_chars = Some (body <$> ps) /\
    chained 0 ps (len text) /\
    Forall (fun p => hi p = len text \/ hi p = lo p + max_chars \/
                     exists d pre, d ∈ delimiters /\ raw text p = pre ++ d) ps.
Proof.
  intros Hmax. apply chunk_pieces_all; [| | |exact Hmax].
  - intros _. left. reflexivity.
  - intros cur Hcur Hend. right. unfold raw. cbn [hi lo].
    set (window := slice text cur (cur + max_chars)).
    assert (Hlen : len window = max_chars).
    { unfold window. rewrite len_slice by lia. lia. }
    destruct (find_sentence_end_cases window delimiters cur (cur + max_chars))
      as [[_ ->] | (d & i & Hin & Hocc & ->)]; [left; reflexivity|].
    right. pose proof (occurs_at_bounds _ _ _ Hocc) as [Hi Hfit].
    pose proof (len_nonneg d) as Hd.
    destruct Hocc as (pre & post & Hw & Hpre).
    exists d, pre. split; [exact Hin|].
    rewrite (slice_take text cur _ (cur + max_chars)) by lia.
    fold window. rewrite Hw, app_assoc. apply take_app_length'.
    rewrite length_app. unfold len in *. lia.
  - intros cur _ _. left. reflexivity.
Qed.

Lemma chunk_text_sentence_ends_hello :
  exists ps,
    chunk_pieces (enough hello) hello 20 = Some ps /\
    chunk_text hello 20 = Some (body <$> ps) /\
    chained 0 ps (len hello) /\
    Forall (fun p => hi p = len hello \/ hi p = lo p + 20 \/
                     exists d pre, d ∈ delimiters /\ raw hello p = pre ++ d) ps.
Proof. apply (chunk_text_sentence_ends hello 20). lia. Defined.

(** X5. The number of chunks: at least one, at least [len(text) / max_chars],
    and no more than there are characters when the text is longer than
    [max_chars]. *)
Theorem chunk_text_count text max_chars :
  1 <= max_chars ->
  exists chunks,
    chunk_text text max_chars = Some chunks /\
    (1 <= length chunks)%nat /\
    len text <= Z.of_nat (length chunks) * max_chars /\
    (max_chars < len text -> Z.of_nat (length chunks) <= len text).
Proof.
  intros Hmax.
  destruct (chunk_pieces_all text max_chars
              (fun p => hi p <= lo p + max_chars /\
                        (max_chars < len text -> lo p < hi p)))
    as (ps & Hpieces & Hrun & Hch & Hall).
  - intros Hle. simpl. lia.
  - intros cur Hcur Hend. simpl.
    pose proof (sentence_end_progress text max_chars cur Hmax Hcur Hend)
      as [_ Hrange]. simpl in Hrange. lia.
  - intros cur Hcur Hend. simpl. lia.
  - exact Hmax.
  - exists (body <$> ps). split; [exact Hrun|]. rewrite length_fmap.
    pose proof (len_nonneg text) as Hlen.
    assert (Hup : len text - 0 <= Z.of_nat (length ps) * max_chars).
    { apply chained_count; [exact Hch|].
      eapply Forall_impl; [exact Hall|]. intros p [Hp _]. exact Hp. }
    split; [|split; [lia|]].
    + destruct ps as [|q ps]; [|simpl; lia]. simpl in Hch.
      unfold chunk_pieces in Hpieces.
      destruct (Z.leb_spec (len text) max_chars); [discriminate | lia].
    + intros Hlong.
      assert (Hlow : Z.of_nat (length ps) <= len text - 0); [|lia].
      apply chained_count_min; [exact Hch|].
      eapply Forall_impl; [exact Hall|]. intros p [_ Hp]. auto.
Qed.

Lemma chunk_text_count_hello :
  exists chunks,
    chunk_text hello 20 = Some chunks /\
    (1 <= length chunks)%nat /\
    len hello <= Z.of_nat (length chunks) * 20 /\
    (20 < len hello -> Z.of_nat (length chunks) <= len hello).
Proof. apply (chunk_text_count hello 20). lia. Defined.

Lemma chunk_loop_unfold fuel text max_chars chunks cur :
  chunk_loop (S fuel) text max_chars chunks cur =
  if cur <? len text then
    if cur + max_chars >=? len text then
      Some (chunks ++ [Piece cur (len text) (strip (slice_from text cur))])
    else
      chunk_loop fuel text max_chars
        (chunks ++
         [Piece cur
            (find_sentence_end (slice text cur (cur + max_chars)) delimiters
               cur (cur + max_chars))
            (strip (slice text cur
                      (find_sentence_end (slice text cur (cur + max_chars))
                         delimiters cur (cur + max_chars))))])
        (find_sentence_end (slice text cur (cur + max_chars)) delimiters
           cur (cur + max_chars))
  else Some chunks.
Proof. reflexivity. Qed.

(** X6. With [max_chars = 0] and a text that is not empty, the loop never
    ends: the cursor stays at 0, whatever the number of iterations. *)
Theorem chunk_text_zero_diverges text :
  text <> [] -> forall fuel, chunk_text_fuel fuel text 0 = None.
Proof.
  intros Hne fuel. assert (Hlen : 0 < len text).
  { destruct text; [congruence|]. unfold len. simpl. lia. }
  unfold chunk_text_fuel, chunk_pieces.
  destruct (Z.leb_spec (len text) 0); [lia|].
  assert (Hloop : forall chunks, chunk_loop fuel text 0 chunks 0 = None).
  { induction fuel as [|fuel IH]; intros chunks; [reflexivity|].
    rewrite chunk_loop_unfold. change (0 + 0) with 0.
    destruct (Z.ltb_spec 0 (len text)); [|lia].
    destruct (Z.geb_spec 0 (len text)); [lia|].
    rewrite slice_empty by lia.
    change (find_sentence_end [] delimiters 0 0) with 0. apply IH. }
  rewrite Hloop. reflexivity.
Qed.

Lemma chunk_text_zero_diverges_hello :
  chunk_text_fuel 1000 hello 0 = None.
Proof. apply (chunk_text_zero_diverges hello). discriminate. Defined.

(** ** What the commands of the processor leave as it was *)

Section keeping.
Context `{Collaborators}.
Variable base_dir : path.
Variable R : world -> world -> Prop.
Variable own : path -> Prop.
Variable upload_to_drive : bool.
Hypothesis R_refl : forall w, R w w.
Hypothesis R_trans : forall w1 w2 w3, R w1 w2 -> R w2 w3 -> R w1 w3.
Hypothesis R_write : forall p data rate, own p -> keeps R (sf_write p data rate).
Hypothesis R_infer : forall ra rt text, keeps R (call_infer ra rt text).
Hypothesis R_ensure : keeps R ensure_f5tts_model.
Hypothesis R_upload :
  forall p drive_folder_id,
    keeps R (upload_if_enabled upload_to_drive p drive_folder_id).

Lemma keeps_ret {A} (a : A) : keeps R (mret a).
Proof. intros w r w' [= <- <-]. apply R_refl. Qed.

Lemma keeps_throw {A} (e : exn) : keeps R (mthrow e : M A).
Proof. intros w r w' [= <- <-]. apply R_refl. Qed.

Lemma keeps_bind {A B} (m : M A) (f : A -> M B) :
  keeps R m -> (forall a, keeps R (f a)) -> keeps R (m ≫= f).
Proof.
  intros Hm Hf w r w'. unfold mbind, M_bind.
  destruct (m w) as [[[a|e] w1]|] eqn:Hrun; [| |discriminate].
  - intros Hk. eapply R_trans; [eapply Hm, Hrun | eapply Hf, Hk].
  - intros [= <- <-]. eapply Hm, Hrun.
Qed.

Lemma keeps_try {A} (body : M A) (handler : exn -> M A) :
  keeps R body -> (forall e, keeps R (handler e)) ->
  keeps R (try_except body handler).
Proof.
  intros Hb Hh w r w'. unfold try_except.
  destruct (body w) as [[[a|e] w1]|] eqn:Hrun; [| |discriminate].
  - intros [= <- <-]. eapply Hb, Hrun.
  - intros Hk. eapply R_trans; [eapply Hb, Hrun | eapply Hh, Hk].
Qed.

Lemma keeps_sf_read p : keeps R (sf_read p).
Proof.
  intros w r w'. unfold sf_read.
  destruct (sounds w !! p) as [[s|]|]; intros [= <- <-]; apply R_refl.
Qed.

Lemma keeps_read_text p : keeps R (read_text p).
Proof.
  intros w r w'. unfold read_text.
  destruct (scripts w !! p); intros [= <- <-]; apply R_refl.
Qed.

Lemma keeps_terminated {A} (o : option A) : keeps R (terminated o).
Proof.
  intros w r w'. unfold terminated.
  destruct o; [intros [= <- <-]; apply R_refl | discriminate].
Qed.

Lemma keeps_generate_audio_chunk text ra rt out :
  own out -> keeps R (generate_audio_chunk text ra rt out).
Proof.
  intros Hout. unfold generate_audio_chunk.
  apply keeps_bind; [exact R_ensure|]. intros _.
  apply keeps_try; [|intros e; apply keeps_ret].
  apply keeps_bind; [apply R_infer|]. intros audio.
  apply keeps_bind; [apply R_write, Hout | intros _; apply keeps_ret].
Qed.

Lemma keeps_read_segments audio_files audio_segments sr :
  keeps R (read_segments audio_files audio_segments sr).
Proof.
  revert audio_segments sr.
  induction audio_files as [|f fs IH]; intros audio_segments sr; simpl.
  - apply keeps_ret.
  - apply keeps_bind; [apply keeps_sf_read|]. intros [a r]. apply IH.
Qed.

Lemma keeps_merge_audio_files audio_files out :
  own out -> keeps R (merge_audio_files audio_files out).
Proof.
  intros Hout. unfold merge_audio_files.
  apply keeps_try; [|intros e; apply keeps_ret].
  apply keeps_bind; [apply keeps_read_segments|]. intros [segs sr].
  apply keeps_bind.
  { unfold np_concatenate.
    destruct (concatenate segs); [apply keeps_ret | apply keeps_throw]. }
  intros merged. apply keeps_bind.
  { destruct sr; [apply keeps_ret | apply keeps_throw]. }
  intros rate. apply keeps_bind; [apply R_write, Hout | intros _; apply keeps_ret].
Qed.

Lemma keeps_generate_chunks script_name ra rt drive_folder_id chunks i files :
  (forall k, own (chunk_output base_dir script_name k)) ->
  keeps R (generate_chunks base_dir script_name ra rt upload_to_drive
             drive_folder_id chunks i files).
Proof.
  intros Hown. revert i files.
  induction chunks as [|c chunks IH]; intros i files; simpl.
  - apply keeps_ret.
  - apply keeps_bind; [apply keeps_generate_audio_chunk, Hown|]. intros ok.
    apply keeps_bind; [|intros fs; apply IH].
    destruct ok; [|apply keeps_ret].
    apply keeps_bind; [apply R_upload | intros _; apply keeps_ret].
Qed.

Lemma keeps_merge_chunks script_name drive_folder_id files :
  own (final_output base_dir script_name) ->
  keeps R (merge_chunks base_dir script_name upload_to_drive drive_folder_id
             files).
Proof.
  intros Hown. unfold merge_chunks. destruct files as [|f files];
    [apply keeps_ret|].
  apply keeps_bind; [apply keeps_merge_audio_files, Hown|]. intros ok.
  destruct ok; [|apply keeps_ret].
  apply keeps_bind; [apply R_upload | intros _; apply keeps_ret].
Qed.

Lemma keeps_process_script script_path ra rt drive_folder_id :
  (forall k, own (chunk_output base_dir (stem script_path) k)) ->
  own (final_output base_dir (stem script_path)) ->
  keeps R (process_script base_dir script_path ra rt upload_to_drive
             drive_folder_id).
Proof.
  intros Hchunks Hfinal. unfold process_script.
  apply keeps_bind; [apply keeps_read_text|]. intros t.
  apply keeps_bind; [apply keeps_terminated|]. intros chunks.
  apply keeps_bind; [apply keeps_generate_chunks, Hchunks|]. intros files.
  apply keeps_merge_chunks, Hfinal.
Qed.
End keeping.

Section tidiness.
Context `{Collaborators}.
Variable base_dir : path.

Lemma tidy_refl own up w : tidy own up w w.
Proof. unfold tidy. auto 10. Qed.

Lemma tidy_trans own up w1 w2 w3 :
  tidy own up w1 w2 -> tidy own up w2 w3 -> tidy own up w1 w3.
Proof.
  intros (Hs1 & Hd1 & Hm1 & Hk1 & Ho1 & Hu1) (Hs2 & Hd2 & Hm2 & Hk2 & Ho2 & Hu2).
  unfold tidy. split; [congruence|]. split; [congruence|].
  split; [auto|]. split; [auto|]. split.
  - intros p Hp. rewrite Ho2, Ho1 by exact Hp. reflexivity.
  - intros Hoff. rewrite Hu2, Hu1; [reflexivity | exact Hoff |].
    rewrite Hd1. exact Hoff.
Qed.

Lemma tidy_mono (own own' : path -> Prop) up w w' :
  (forall p, own p -> own' p) -> tidy own up w w' -> tidy own' up w w'.
Proof.
  intros Hsub (Hs & Hd & Hm & Hk & Ho & Hu). unfold tidy.
  repeat (split; [assumption|]). split; [|exact Hu].
  intros p Hp. apply Ho. intros Hown. apply Hp, Hsub, Hown.
Qed.

Lemma tidy_write (own : path -> Prop) up p data rate :
  own p -> keeps (tidy own up) (sf_write p data rate).
Proof.
  intros Hp w r w'. unfold sf_write.
  destruct (write_outcome p data rate (disk w)) as [d [[e remains]|]];
    intros [= <- <-]; unfold tidy; simpl;
    (split; [reflexivity|]); (split; [reflexivity|]); (split; [auto|]);
    (split; [|split; [|auto]]).
  - intros q Hq. apply leftover_is_Some, Hq.
  - intros q Hq. apply leftover_ne. intros ->. exact (Hq Hp).
  - intros q Hq. destruct (decide (p = q)) as [->|Hne].
    + rewrite lookup_insert_eq. eauto.
    + rewrite lookup_insert_ne by exact Hne. exact Hq.
  - intros q Hq. apply lookup_insert_ne. intros ->. exact (Hq Hp).
Qed.

Lemma tidy_infer own up ra rt text : keeps (tidy own up) (call_infer ra rt text).
Proof.
  intros w r w'. unfold call_infer.
  destruct (f5tts_model w) as [m|]; [|intros [= <- <-]; apply tidy_refl].
  destruct (infer m ra rt text (synthesis w)) as [b [e|a]];
    intros [= <- <-]; unfold tidy; simpl; auto 10.
Qed.

Lemma tidy_ensure own up : keeps (tidy own up) ensure_f5tts_model.
Proof.
  intros w r w'. unfold ensure_f5tts_model, mbind, M_bind, get, load_f5tts_model.
  destruct (f5tts_model w) as [m|] eqn:Hm.
  - intros [= <- <-]. apply tidy_refl.
  - destruct (F5TTS_new (synthesis w)) as [b [e|m]];
      intros [= <- <-]; unfold tidy; simpl; rewrite Hm;
      repeat (split; [auto; discriminate|]); auto.
Qed.

Lemma tidy_upload own up p drive_folder_id :
  keeps (tidy own up) (upload_if_enabled up p drive_folder_id).
Proof.
  intros w r w'. unfold upload_if_enabled, mbind, M_bind, get.
  destruct (drive_manager w) as [d|] eqn:Hd, up;
    intros [= <- <-]; unfold tidy; simpl; rewrite ?Hd;
    repeat (split; [auto|]); auto; intros [?|?]; discriminate.
Qed.

Lemma tidy_print own up l : keeps (tidy own up) (print l).
Proof. intros w r w' [= <- <-]. unfold tidy. simpl. auto 10. Qed.

Lemma process_script_keeps script_path ra rt up drive_folder_id :
  keeps (tidy (own_files base_dir (stem script_path)) up)
    (process_script base_dir script_path ra rt up drive_folder_id).
Proof.
  apply (keeps_process_script base_dir _ (own_files base_dir (stem script_path)) up).
  - apply tidy_refl.
  - apply tidy_trans.
  - apply tidy_write.
  - apply tidy_infer.
  - apply tidy_ensure.
  - apply tidy_upload.
  - intros k. left. eauto.
  - right. reflexivity.
Qed.

Lemma process_script_silent script_path ra rt up drive_folder_id :
  keeps silent (process_script base_dir script_path ra rt up drive_folder_id).
Proof.
  apply (keeps_process_script base_dir silent (fun _ => True) up).
  - reflexivity.
  - unfold silent. congruence.
  - intros p data rate _ w r w'. unfold sf_write.
    destruct (write_outcome p data rate (disk w)) as [d [[e remains]|]];
      intros [= <- <-]; reflexivity.
  - intros ra' rt' text w r w'. unfold call_infer.
    destruct (f5tts_model w) as [m|]; [|intros [= <- <-]; reflexivity].
    destruct (infer m ra' rt' text (synthesis w)) as [b [e|a]];
      intros [= <- <-]; reflexivity.
  - intros w r w'.
    unfold ensure_f5tts_model, mbind, M_bind, get, load_f5tts_model.
    destruct (f5tts_model w) as [m|]; [intros [= <- <-]; reflexivity|].
    destruct (F5TTS_new (synthesis w)) as [b [e|m]];
      intros [= <- <-]; reflexivity.
  - intros p fid w r w'. unfold upload_if_enabled, mbind, M_bind, get.
    destruct (drive_manager w), up; intros [= <- <-]; reflexivity.
  - auto.
  - exact I.
Qed.
End tidiness.

(** ** More on the processor and on the driver *)

Section processor_more.
Context `{Collaborators}.
Variable base_dir : path.

Implicit Types (w : world) (p out : path).

Lemma generate_chunks_none script_name ra rt up drive_folder_id chunks i files
    w model :
  f5tts_model w = Some model ->
  synthesized model ra rt (synthesis w) chunks i = [] ->
  exists w',
    generate_chunks base_dir script_name ra rt up drive_folder_id chunks i
      files w = Some (Return files, w') /\
    sounds w' = sounds w /\ store w' = store w.
Proof.
  revert i w. induction chunks as [|c chunks IH]; intros i w Hm Hnone.
  - exists w. auto.
  - cbn [generate_chunks synthesized] in *. unfold mbind at 1. unfold M_bind at 1.
    rewrite (generate_audio_chunk_run _ _ _ _ _ w model (ensure_loaded _ _ Hm) Hm).
    destruct (infer model ra rt c (synthesis w)) as [b [e|audio]];
      [|discriminate].
    destruct (IH (S i) (set_synthesis b w) Hm Hnone) as (w' & Hrun & Hs & Hst).
    exists w'. unfold mbind, M_bind, mret, M_ret. simpl in Hrun |- *.
    rewrite Hrun. auto.
Qed.



Lemma process_each_script_failure config ra rt script_file rest i all w e w1 :
  process_script base_dir script_file ra rt
    (truthy (config_get config "auto_upload" (JBool true)))
    (config !! "output_folder_id") w = Some (Raise e, w1) ->
  process_each_script base_dir config ra rt (script_file :: rest) i all w =
  process_each_script base_dir config ra rt rest (S i) all
    (set_console (console w1 ++ [ScriptFailed script_file e]) w1).
Proof.
  intros Hfail. cbn [process_each_script]. unfold mbind at 1. unfold M_bind at 1.
  unfold try_except. unfold mbind at 1. unfold M_bind at 1.
  rewrite Hfail. reflexivity.
Qed.

(** X7. Whatever its outcome, [process_script] leaves the script files as
    they were, removes no sound file, and changes no sound file besides
    the chunk files and the merged file of its script. *)
Theorem process_script_own_files script_path ra rt up drive_folder_id w :
  exists r w',
    process_script base_dir script_path ra rt up drive_folder_id w =
    Some (r, w') /\
    scripts w' = scripts w /\
    (forall p, is_Some (sounds w !! p) -> is_Some (sounds w' !! p)) /\
    (forall p, ~ own_files base_dir (stem script_path) p ->
               sounds w' !! p = sounds w !! p).
Proof.
  destruct (total_process_script base_dir script_path ra rt up drive_folder_id w)
    as (r & w' & Hrun).
  exists r, w'. split; [exact Hrun|].
  destruct (process_script_keeps base_dir _ _ _ _ _ _ _ _ Hrun)
    as (Hs & _ & _ & Hk & Ho & _).
  auto.
Qed.

(** X8. With uploads off, by the flag or for want of a drive manager,
    [process_script] leaves the remote store as it was. *)
Theorem process_script_no_upload script_path ra rt up drive_folder_id w :
  up = false \/ drive_manager w = None ->
  exists r w',
    process_script base_dir script_path ra rt up drive_folder_id w =
    Some (r, w') /\
    store w' = store w.
Proof.
  intros Hoff.
  destruct (total_process_script base_dir script_path ra rt up drive_folder_id w)
    as (r & w' & Hrun).
  exists r, w'. split; [exact Hrun|].
  destruct (process_script_keeps base_dir _ _ _ _ _ _ _ _ Hrun)
    as (_ & _ & _ & _ & _ & Hu).
  auto.
Qed.

(** X9. A model that is loaded when [process_script] starts is still the
    model of the processor when it ends: it is loaded once. *)
Theorem process_script_keeps_model script_path ra rt up drive_folder_id w model :
  f5tts_model w = Some model ->
  exists r w',
    process_script base_dir script_path ra rt up drive_folder_id w =
    Some (r, w') /\
    f5tts_model w' = Some model.
Proof.
  intros Hm.
  destruct (total_process_script base_dir script_path ra rt up drive_folder_id w)
    as (r & w' & Hrun).
  exists r, w'. split; [exact Hrun|].
  destruct (process_script_keeps base_dir _ _ _ _ _ _ _ _ Hrun)
    as (_ & _ & Hk & _).
  auto.
Qed.

(** X10. When no chunk of a readable script is synthesized,
    [process_script] returns no file, merges nothing, and leaves the sound
    files and the remote store as they were. *)
Theorem process_script_no_success script_path ra rt up drive_folder_id w w1 t
    model :
  scripts w !! script_path = Some t ->
  ensure_f5tts_model w = Some (Return (), w1) ->
  f5tts_model w1 = Some model ->
  exists chunks,
    chunk_text (strip t) 500 = Some chunks /\
    (synthesized model ra rt (synthesis w1) chunks 0 = [] ->
     exists w',
       process_script base_dir script_path ra rt up drive_folder_id w =
       Some (Return [], w') /\
       sounds w' = sounds w /\ store w' = store w).
Proof.
  intros Ht Hens Hm.
  destruct (process_script_run base_dir script_path ra rt up drive_folder_id
              w t Ht) as (chunks & Hc & Hne & Hrun).
  exists chunks. split; [exact Hc|]. intros Hnone.
  destruct (generate_chunks_none (stem script_path) ra rt up drive_folder_id
              chunks 0 [] w1 model Hm Hnone) as (w' & Hgen & Hs & Hst).
  destruct (ensure_keeps_files _ _ _ Hens) as (Hs1 & _ & _ & _ & Hst1).
  exists w'. rewrite Hrun. unfold mbind, M_bind.
  rewrite (generate_chunks_ensure base_dir _ _ _ _ _ _ _ _ _ _ _ Hens Hm Hne).
  rewrite Hgen. split; [reflexivity|]. split; congruence.
Qed.

(** X11. A model that fails to load is fatal to the script: on a readable
    script [process_script] raises the exception of the load, and no sound
    file is written. *)
Theorem process_script_load_failure script_path ra rt up drive_folder_id w t b e :
  scripts w !! script_path = Some t ->
  f5tts_model w = None ->
  F5TTS_new (synthesis w) = (b, inl e) ->
  process_script base_dir script_path ra rt up drive_folder_id w =
  Some (Raise e, set_synthesis b w).
Proof.
  intros Ht Hm Hload.
  destruct (process_script_run base_dir script_path ra rt up drive_folder_id
              w t Ht) as (chunks & Hc & Hne & Hrun).
  rewrite Hrun. destruct chunks as [|c chunks]; [congruence|].
  cbn [generate_chunks]. unfold mbind, M_bind.
  rewrite (generate_audio_chunk_load_failure _ _ _ _ _ _ _ Hm Hload).
  reflexivity.
Qed.


(** X13. The chunk files of a script have distinct names for distinct
    indices, and the merged file of a script is never one of the chunk
    files. *)
Theorem output_names_distinct script_name other i k :
  (chunk_output base_dir script_name i = chunk_output base_dir script_name k
   <-> i = k) /\
  final_output base_dir other <> chunk_output base_dir script_name i.
Proof.
  split; [split|].
  - apply chunk_output_inj.
  - intros ->. reflexivity.
  - apply final_output_fresh.
Qed.

Lemma keeps_process_each_script config ra rt script_files i all :
  keeps (tidy (fun p => exists s, s ∈ script_files /\
                                  own_files base_dir (stem s) p)
              (truthy (config_get config "auto_upload" (JBool true))))
    (process_each_script base_dir config ra rt script_files i all).
Proof.
  revert i all. induction script_files as [|s rest IH]; intros i all.
  - intros w r w' [= <- <-]. apply tidy_refl.
  - cbn [process_each_script].
    apply keeps_bind; [apply tidy_trans | |].
    + apply keeps_try; [apply tidy_trans | |].
      * apply keeps_bind; [apply tidy_trans | |].
        -- intros w r w' Hrun. eapply tidy_mono;
             [|eapply process_script_keeps, Hrun].
           intros p Hp. exists s. split; [apply elem_of_cons; auto | exact Hp].
        -- intros fs. apply keeps_bind; [apply tidy_trans | apply tidy_print|].
           intros _ w r w' [= <- <-]. apply tidy_refl.
      * intros e. apply keeps_bind; [apply tidy_trans | apply tidy_print|].
        intros _ w r w' [= <- <-]. apply tidy_refl.
    + intros files w r w' Hrun. eapply tidy_mono; [|eapply IH, Hrun].
      intros p (s' & Hin & Hp). exists s'.
      split; [apply elem_of_cons; auto | exact Hp].
Qed.

(** X14. The loop of [run_pipeline] prints one line for each script, in
    the order of the scripts and after what the console held: the index of
    a script that completed, or the path of a script that failed; the files
    it returns are those it started with followed by as many files as the
    lines of the completed scripts report. *)
Theorem process_each_script_reports config ra rt script_files i all w :
  exists files lines w',
    process_each_script base_dir config ra rt script_files i all w =
    Some (Return files, w') /\
    console w' = console w ++ lines /\
    reports i script_files lines /\
    exists more, files = all ++ more /\ length more = files_reported lines.
Proof.
  revert i all w. induction script_files as [|s rest IH]; intros i all w.
  - exists all, [], w. rewrite !app_nil_r. repeat split. exists [].
    rewrite app_nil_r. split; reflexivity.
  - destruct (total_process_script base_dir s ra rt
                (truthy (config_get config "auto_upload" (JBool true)))
                (config !! "output_folder_id") w) as ([fs|e] & w1 & Hrun);
      pose proof (process_script_silent base_dir _ _ _ _ _ _ _ _ Hrun) as Hc;
      unfold silent in Hc.
    + rewrite (process_each_script_success base_dir _ _ _ _ _ _ _ _ _ _ Hrun).
      destruct (IH (S i) (all ++ fs)
                  (set_console (console w1 ++ [ScriptComplete i (length fs)]) w1))
        as (files & lines & w' & Hloop & Hcon & Hrep & more & Hfiles & Hlen).
      exists files, (ScriptComplete i (length fs) :: lines), w'.
      split; [exact Hloop|]. split.
      { rewrite Hcon. simpl. rewrite Hc, <- app_assoc. reflexivity. }
      split; [simpl; split; [left; eauto | exact Hrep]|].
      exists (fs ++ more). rewrite Hfiles, <- app_assoc.
      split; [reflexivity|]. rewrite length_app. simpl. lia.
    + rewrite (process_each_script_failure _ _ _ _ _ _ _ _ _ _ Hrun).
      destruct (IH (S i) all
                  (set_console (console w1 ++ [ScriptFailed s e]) w1))
        as (files & lines & w' & Hloop & Hcon & Hrep & more & Hfiles & Hlen).
      exists files, (ScriptFailed s e :: lines), w'.
      split; [exact Hloop|]. split.
      { rewrite Hcon. simpl. rewrite Hc, <- app_assoc. reflexivity. }
      split; [simpl; split; [right; eauto | exact Hrep]|].
      exists more. auto.
Qed.

(** X15. The loop of [run_pipeline] leaves the script files as they were,
    removes no sound file, changes no sound file besides the chunk files
    and merged files of its scripts, and leaves the remote store as it was
    when [auto_upload] is off or there is no drive manager. *)
Theorem process_each_script_tidy config ra rt script_files i all w :
  exists files w',
    process_each_script base_dir config ra rt script_files i all w =
    Some (Return files, w') /\
    scripts w' = scripts w /\
    (forall p, is_Some (sounds w !! p) -> is_Some (sounds w' !! p)) /\
    (forall p, (forall s, s ∈ script_files -> ~ own_files base_dir (stem s) p) ->
               sounds w' !! p = sounds w !! p) /\
    (truthy (config_get config "auto_upload" (JBool true)) = false \/
     drive_manager w = None -> store w' = store w).
Proof.
  destruct (process_each_script_returns base_dir config ra rt script_files i
              all w) as (files & w' & Hrun).
  exists files, w'. split; [exact Hrun|].
  destruct (keeps_process_each_script _ _ _ _ _ _ _ _ _ Hrun)
    as (Hs & _ & _ & Hk & Ho & Hu).
  split; [exact Hs|]. split; [exact Hk|]. split; [|exact Hu].
  intros p Hp. apply Ho. intros (s & Hin & Hown). exact (Hp s Hin Hown).
Qed.
End processor_more.

Section instances_more.

Lemma process_script_no_upload_demo :
  exists r w',
    process_script (H := demo) "/base" "ok.txt" "ref.wav" [] false None
      two_scripts = Some (r, w') /\
    store w' = store two_scripts.
Proof.
  apply (process_script_no_upload (H := demo) "/base" "ok.txt" "ref.wav" []
           false None two_scripts).
  left. reflexivity.
Defined.

Lemma process_script_keeps_model_demo :
  exists r w',
    process_script (H := demo) "/base" "ok.txt" "ref.wav" [] true None
      two_scripts = Some (r, w') /\
    f5tts_model w' = Some ().
Proof.
  apply (process_script_keeps_model (H := demo) "/base" "ok.txt" "ref.wav" []
           true None two_scripts ()).
  reflexivity.
Defined.

Lemma process_script_no_success_demo :
  exists chunks,
    chunk_text (strip (of_string "Hi there.")) 500 = Some chunks /\
    (synthesized (H := demo) () "ref.wav" [] (synthesis failing_script) chunks 0
     = [] ->
     exists w',
       process_script (H := demo) "/base" "ok.txt" "ref.wav" [] true None
         failing_script = Some (Return [], w') /\
       sounds w' = sounds failing_script /\ store w' = store failing_script).
Proof.
  apply (process_script_no_success (H := demo) "/base" "ok.txt" "ref.wav" []
           true None failing_script failing_script (of_string "Hi there.") ());
    vm_compute; reflexivity.
Defined.

(** The only segment fails: no file, nothing on disk, nothing uploaded. *)
Example failing_script_run :
  (fun r => (r.1, sounds r.2, store r.2)) <$>
    process_script (H := demo) "/base" "ok.txt" "ref.wav" [] true None
      failing_script =
  Some (Return [], ∅, []).
Proof. vm_compute. reflexivity. Qed.

Lemma process_script_load_failure_demo :
  process_script (H := no_model) "/base" "ok.txt" "ref.wav" [] true None
    unloaded =
  Some (Raise (ServiceError 7), set_synthesis (H := no_model) 1%nat unloaded).
Proof.
  apply (process_script_load_failure (H := no_model) "/base" "ok.txt" "ref.wav"
           [] true None unloaded (of_string "Hi there.") 1%nat (ServiceError 7));
    reflexivity.
Defined.
End instances_more.

(** ** The choice of the scripts *)

Section script_choice.
Variables (exists_ : path -> bool) (script_path : string -> path).

Lemma existing_scripts_filter names script_files :
  existing_scripts exists_ script_path names script_files =
  script_files ++ filter (fun p => exists_ p = true) (script_path <$> names).
Proof.
  revert script_files. induction names as [|n names IH]; intros script_files.
  - simpl. rewrite app_nil_r. reflexivity.
  - cbn [existing_scripts]. rewrite fmap_cons, filter_cons.
    destruct (exists_ (script_path n)) eqn:Hn; rewrite IH.
    + rewrite decide_True by reflexivity. rewrite <- app_assoc. reflexivity.
    + rewrite decide_False by discriminate. reflexivity.
Qed.

(** X16. When the configuration lists scripts, the scripts processed are
    the listed ones that exist, in the order of the list; when none of
    them exists the run exits with status 1, whatever text files the
    scripts directory holds. *)
Theorem find_script_files_listed config txt_files names :
  config !! "scripts" = Some (JList names) -> names <> [] ->
  let present := filter (fun p => exists_ p = true) (script_path <$> names) in
  (present = [] ->
   find_script_files config exists_ script_path txt_files = SystemExit 1) /\
  (present <> [] ->
   find_script_files config exists_ script_path txt_files = Selected present).
Proof.
  intros Hcfg Hne present. unfold find_script_files. rewrite Hcfg.
  destruct names as [|n names]; [congruence|]. cbn [truthy].
  rewrite existing_scripts_filter. cbn [app]. fold present.
  unfold some_script. destruct present; split; congruence.
Qed.

(** Without a list of scripts, or with an empty one, the text files of
    the scripts directory are taken. *)
Lemma find_script_files_unlisted config txt_files :
  config !! "scripts" = None \/ config !! "scripts" = Some (JList []) ->
  find_script_files config exists_ script_path txt_files =
  some_script txt_files.
Proof. unfold find_script_files. intros [-> | ->]; reflexivity. Qed.
End script_choice.

Lemma find_script_files_three_named :
  let exists_ := fun p => negb (String.eqb p "/scripts/b.txt") in
  let present :=
    filter (fun p => exists_ p = true)
      (joinpath "/scripts" <$> ["a.txt"; "b.txt"; "c.txt"]) in
  (present = [] ->
   find_script_files three_named exists_ (joinpath "/scripts") ["/scripts/z.txt"]
   = SystemExit 1) /\
  (present <> [] ->
   find_script_files three_named exists_ (joinpath "/scripts") ["/scripts/z.txt"]
   = Selected present).
Proof.
  apply (find_script_files_listed
           (fun p => negb (String.eqb p "/scripts/b.txt")) (joinpath "/scripts")
           three_named ["/scripts/z.txt"] ["a.txt"; "b.txt"; "c.txt"]);
    [reflexivity | discriminate].
Defined.

(** The second script is missing: the first and the third are taken; and
    when all are missing the run exits although a text file is there. *)
Example three_named_selection :
  find_script_files three_named
    (fun p => negb (String.eqb p "/scripts/b.txt")) (joinpath "/scripts")
    ["/scripts/z.txt"] = Selected ["/scripts/a.txt"; "/scripts/c.txt"] /\
  find_script_files three_named (fun _ => false) (joinpath "/scripts")
    ["/scripts/z.txt"] = SystemExit 1.
Proof. split; vm_compute; reflexivity. Qed.

(** ** The drive manager *)

Section drive_manager.
Context `{PyDrive}.
Import DriveManager.

Lemma existing_id_none l file_name :
  Forall (fun f => file_title f <> file_name) l -> existing_id l file_name = None.
Proof.
  induction 1 as [|f l Hf _ IH]; simpl; [reflexivity|].
  destruct (String.eqb_spec (file_title f) file_name); [contradiction | exact IH].
Qed.

Lemma existing_id_first l1 f l2 file_name :
  Forall (fun f' => file_title f' <> file_name) l1 ->
  file_title f = file_name ->
  existing_id (l1 ++ f :: l2) file_name = Some (file_id f).
Proof.
  intros Hl1 Hf. induction Hl1 as [|f' l1 Hf' _ IH]; simpl.
  - rewrite (proj2 (String.eqb_eq _ _) Hf). reflexivity.
  - destruct (String.eqb_spec (file_title f') file_name); [contradiction | exact IH].
Qed.

Lemma upload_file_present local file_path folder_id g data l1 f l2 :
  local !! file_path = Some data ->
  folder_id <> ""%string ->
  GetList folder_id g = inr (l1 ++ f :: l2) ->
  Forall (fun f' => file_title f' <> path_name file_path) l1 ->
  file_title f = path_name file_path ->
  upload_file local file_path (Some folder_id) false g = (g, Some (file_id f)).
Proof.
  intros Hlocal Hfid Hlist Hl1 Hf. unfold upload_file, given, list_files_in_folder.
  rewrite Hlocal, (proj2 (String.eqb_neq _ _) Hfid). cbn [negb].
  rewrite Hlist, (existing_id_first _ _ _ _ Hl1 Hf). reflexivity.
Qed.

(** X17. Into a folder, without [overwrite]: when the listing of the folder
    holds a file with the name of the local file, [upload_file] returns
    the identifier of the first such file and uploads nothing. *)
Theorem upload_file_existing local file_path folder_id g data l1 f l2 :
  local !! file_path = Some data ->
  folder_id <> ""%string ->
  GetList folder_id g = inr (l1 ++ f :: l2) ->
  Forall (fun f' => file_title f' <> path_name file_path) l1 ->
  file_title f = path_name file_path ->
  upload_file local file_path (Some folder_id) false g = (g, Some (file_id f)).
Proof. apply upload_file_present. Qed.

(** X18. Publishing twice: if the folder holds no file with the name of the
    local file, the upload succeeds with identifier [i], and the folder
    then lists the new file after the others, the first [upload_file]
    returns [i] and the second returns [i] again without changing the
    drive. *)
Theorem upload_file_twice local file_path folder_id g g' data l i mime :
  local !! file_path = Some data ->
  folder_id <> ""%string ->
  GetList folder_id g = inr l ->
  Forall (fun f => file_title f <> path_name file_path) l ->
  Upload (path_name file_path) (Some folder_id) data g = (g', inr i) ->
  GetList folder_id g' = inr (l ++ [GFile (path_name file_path) i mime]) ->
  upload_file local file_path (Some folder_id) false g = (g', Some i) /\
  upload_file local file_path (Some folder_id) false g' = (g', Some i).
Proof.
  intros Hlocal Hfid Hlist Hl Hup Hlist'. split.
  - unfold upload_file, given, list_files_in_folder.
    rewrite Hlocal, (proj2 (String.eqb_neq _ _) Hfid). cbn [negb].
    rewrite Hlist, (existing_id_none _ _ Hl), Hup. reflexivity.
  - apply (upload_file_present local file_path folder_id g' data l
             (GFile (path_name file_path) i mime) []); auto.
Qed.

(** A local file that does not exist is not uploaded; a listing that fails
    counts as an empty folder, so that the file is uploaded. *)
Lemma upload_file_edges local file_path folder_id overwrite g data e :
  (local !! file_path = None ->
   upload_file local file_path folder_id overwrite g = (g, None)) /\
  (local !! file_path = Some data ->
   forall fid, given folder_id = Some fid -> GetList fid g = inl e ->
   upload_file local file_path folder_id overwrite g =
   (let '(g', r) := Upload (path_name file_path) (Some fid) data g in
    (g', match r with inr i => Some i | inl _ => None end))).
Proof.
  split.
  - intros Hlocal. unfold upload_file. rewrite Hlocal. reflexivity.
  - intros Hlocal fid Hfid Hlist. unfold upload_file, list_files_in_folder.
    rewrite Hlocal, Hfid, Hlist. destruct overwrite; reflexivity.
Qed.
End drive_manager.

Section drive_instances.
Import DriveManager.

Lemma upload_file_existing_toy :
  upload_file (H := toy_drive) one_local_file "a.wav" (Some "folder"%string)
    false [("folder"%string, GFile "a.wav" "0" "audio/wav")] =
  ([("folder"%string, GFile "a.wav" "0" "audio/wav")], Some "0"%string).
Proof.
  apply (upload_file_existing (H := toy_drive) one_local_file "a.wav" "folder"
           [("folder"%string, GFile "a.wav" "0" "audio/wav")] (of_string "abc")
           [] (GFile "a.wav" "0" "audio/wav") []);
    [reflexivity | discriminate | reflexivity | constructor | reflexivity].
Defined.

Lemma upload_file_twice_toy :
  upload_file (H := toy_drive) one_local_file "a.wav" (Some "folder"%string)
    false [] =
  ([("folder"%string, GFile "a.wav" "0" "audio/wav")], Some "0"%string) /\
  upload_file (H := toy_drive) one_local_file "a.wav" (Some "folder"%string)
    false [("folder"%string, GFile "a.wav" "0" "audio/wav")] =
  ([("folder"%string, GFile "a.wav" "0" "audio/wav")], Some "0"%string).
Proof.
  apply (upload_file_twice (H := toy_drive) one_local_file "a.wav" "folder" []
           [("folder"%string, GFile "a.wav" "0" "audio/wav")] (of_string "abc")
           [] "0" "audio/wav");
    [reflexivity | discriminate | reflexivity | constructor | reflexivity
    | reflexivity].
Defined.
End drive_instances.

Section short_scripts.
Context `{Collaborators}.
Variable base_dir : path.

Lemma concatenate_single (a : ndarray sample) : concatenate [a] = Some a.
Proof. destruct a as [fs sh]. unfold concatenate. simpl. rewrite app_nil_r. reflexivity. Qed.

(** X19. A readable script whose trimmed text has at most 500 characters is
    synthesized as one segment, the trimmed text; when that call succeeds
    and the chunk file and the merged file are written, [process_script]
    returns the first chunk file and the merged file; the chunk file holds
    what a file keeps of the audio of the call, and the merged file what a
    file keeps of the audio read from the chunk file, both at 24000 Hz. *)
Theorem process_script_short script_path ra rt up drive_folder_id w w1 t model
    b audio_data d1 d2 :
  scripts w !! script_path = Some t ->
  len (strip t) <= 500 ->
  ensure_f5tts_model w = Some (Return (), w1) ->
  f5tts_model w1 = Some model ->
  infer model ra rt (strip t) (synthesis w1) = (b, inr audio_data) ->
  write_outcome (chunk_output base_dir (stem script_path) 0) audio_data 24000
    (disk w) = (d1, None) ->
  write_outcome (final_output base_dir (stem script_path)) (stored audio_data)
    24000 d1 = (d2, None) ->
  exists w',
    process_script base_dir script_path ra rt up drive_folder_id w =
    Some (Return [chunk_output base_dir (stem script_path) 0;
                  final_output base_dir (stem script_path)], w') /\
    sounds w' !! chunk_output base_dir (stem script_path) 0 =
    Some (Wav (Sound (stored audio_data) 24000)) /\
    sounds w' !! final_output base_dir (stem script_path) =
    Some (Wav (Sound (stored (stored audio_data)) 24000)).
Proof.
  intros Ht Hlen Hens Hm Hinfer Hw1 Hw2.
  destruct (process_script_run base_dir script_path ra rt up drive_folder_id
              w t Ht) as (chunks & Hc & Hne & Hrun).
  assert (Hone : chunks = [strip t]).
  { unfold chunk_text, chunk_text_fuel, chunk_pieces in Hc.
    destruct (Z.leb_spec (len (strip t)) 500); [|lia].
    injection Hc as <-. reflexivity. }
  subst chunks.
  set (out := chunk_output base_dir (stem script_path) 0) in *.
  pose proof (generate_audio_chunk_run (strip t) ra rt out w w1 model Hens Hm)
    as Hgac.
  destruct (ensure_keeps_files _ _ _ Hens) as (Hs1 & _).
  rewrite Hinfer, (ensure_keeps_disk _ _ _ Hens), Hw1 in Hgac.
  match type of Hgac with _ = Some (_, ?x) => set (wA := x) in Hgac end.
  destruct (upload_if_enabled_run up out drive_folder_id wA)
    as (wB & Hup & HsB & _ & _ & _ & _ & HdB).
  assert (Hfiles : forall k a, (k, a) ∈ [(0%nat, audio_data)] ->
             sounds wB !! chunk_output base_dir (stem script_path) k =
             Some (Wav (Sound (stored a) 24000))).
  { intros k a Hin. apply elem_of_cons in Hin as [[= -> ->]|Hin].
    - rewrite HsB. apply lookup_insert_eq.
    - apply elem_of_nil in Hin as []. }
  destruct (merge_chunks_run base_dir (stem script_path) up drive_folder_id
              [(0%nat, audio_data)] wB ltac:(discriminate) Hfiles)
    as (w3 & _ & _ & Hmerge).
  cbn [fmap list_fmap snd fst] in Hmerge.
  rewrite concatenate_single, HdB in Hmerge. cbn [wA disk set_sounds set_disk]
    in Hmerge.
  rewrite Hw2 in Hmerge. destruct Hmerge as (Hm3 & Hs3).
  exists w3. rewrite Hrun. cbn [generate_chunks]. unfold mbind, M_bind.
  fold out. rewrite Hgac, Hup. unfold mret, M_ret. cbn [app].
  subst out. rewrite Hm3. split; [reflexivity|].
  rewrite Hs3, HsB. split.
  - rewrite lookup_insert_ne by apply final_output_fresh.
    apply lookup_insert_eq.
  - apply lookup_insert_eq.
Qed.
End short_scripts.

Lemma process_script_short_demo :
  exists w',
    process_script (H := demo) "/base" "ok.txt" "ref.wav" [] true None
      two_scripts =
    Some (Return [chunk_output "/base" "ok" 0; final_output "/base" "ok"],
          w') /\
    sounds w' !! chunk_output "/base" "ok" 0 =
    Some (Wav (Sound (pcm16 (NDArray (Z.of_N <$> of_string "Hi there.") []))
                 24000)) /\
    sounds w' !! final_output "/base" "ok" =
    Some (Wav (Sound (pcm16 (pcm16 (NDArray (Z.of_N <$> of_string "Hi there.")
                                      []))) 24000)).
Proof.
  apply (process_script_short (H := demo) "/base" "ok.txt" "ref.wav" [] true
           None two_scripts two_scripts (of_string "Hi there.") () 1%nat
           (NDArray (Z.of_N <$> of_string "Hi there.") []) () ());
    [reflexivity | vm_compute; discriminate | reflexivity | reflexivity
    | reflexivity | reflexivity | reflexivity].
Defined.

(** ** The transcription of the reference audio *)

Section transcription.
Context `{Whisper}.

(** X20. The text [transcribe_audio] returns neither starts nor ends with
    white space; the processor then holds a model, and a model it held
    before the call is still the one it holds: it is not loaded again. *)
Theorem transcribe_audio_trimmed audio_path l l' text :
  transcribe_audio audio_path l = (l', inr text) ->
  (forall x, head text = Some x -> isspace x = false) /\
  (forall x, last text = Some x -> isspace x = false) /\
  is_Some (whisper_model l') /\
  (forall model, whisper_model l = Some model -> whisper_model l' = Some model).
Proof.
  unfold transcribe_audio, load_whisper_model.
  destruct (whisper_model l) as [m|] eqn:Hm.
  - rewrite Hm. destruct (transcribe m audio_path (hearing l)) as [h [e|t]];
      intros [= <- <-]. simpl.
    destruct (strip_ends t) as [Hhead Hlast]. eauto 10.
  - destruct (load_model "base" (hearing l)) as [h [e|m]]; [discriminate|].
    simpl. destruct (transcribe m audio_path h) as [h' [e|t]];
      intros [= <- <-]. simpl.
    destruct (strip_ends t) as [Hhead Hlast].
    repeat (split; [eauto|]). discriminate.
Qed.
End transcription.

Lemma transcribe_audio_trimmed_toy :
  let text := of_string "Hello there." in
  (forall x, head text = Some x -> isspace x = false) /\
  (forall x, last text = Some x -> isspace x = false) /\
  is_Some (@whisper_model toy_whisper (Listener (H := toy_whisper) (Some ()) 2%nat)) /\
  (forall model,
      @whisper_model toy_whisper (Listener (H := toy_whisper) None 0%nat) = Some model ->
      @whisper_model toy_whisper (Listener (H := toy_whisper) (Some ()) 2%nat) = Some model).
Proof.
  apply (transcribe_audio_trimmed (H := toy_whisper) "ref.wav"
           (Listener (H := toy_whisper) None 0%nat)
           (Listener (H := toy_whisper) (Some ()) 2%nat)
           (of_string "Hello there.")).
  reflexivity.
Defined.
